(** * fixPunctuation.js: full-width punctuation linter

    A shallow embedding of [scripts/fixPunctuation.js] and the proofs of
    its documented properties.

    - JavaScript strings are sequences of UTF-16 code units; every
      character the script handles lies in the Basic Multilingual Plane,
      so a string is a [list N] of code units.
    - The regular expressions of the script are alternations of literal
      character sequences.  A [RegExp] keeps its [source] text and its
      [global] flag, as the JavaScript object does; the matcher reads the
      alternatives off the source by splitting at [|].
    - [String.prototype.replace], [String.prototype.matchAll] and
      [RegExp.prototype.test] follow the ECMAScript algorithms: a scan
      from left to right that tries the alternatives in order at each
      index and resumes after the end of a match.
    - The file system and the console are explicit state, threaded
      through a small monad that also carries [exit] and uncaught
      exceptions.  A write always succeeds; a read fails on a missing
      file.
    - [parseArgv] builds the options object, a map from keys to [true]
      or to the array of paths, and [main] chooses the arguments of
      [iterateFiles] from it.  [join] of [node:path], [__dirname] and
      the result of the glob of [fast-glob] are parameters. *)

From Stdlib Require Import NArith List Ascii String Lia Bool.
From stdpp Require Import gmap strings list.

Import ListNotations.
Local Open Scope nat_scope.
Local Open Scope list_scope.

(** ** Strings *)

(** One UTF-16 code unit. *)
Abbreviation char16 := N (only parsing).
Abbreviation jsstring := (list N) (only parsing).

(** An ASCII literal as a JavaScript string. *)
Definition ofAscii (s : string) : jsstring :=
  List.map N_of_ascii (list_ascii_of_string s).

(** [p] is a prefix of [t] ([t.startsWith(p)]). *)
Fixpoint startsWith (p t : jsstring) : bool :=
  match p, t with
  | [], _ => true
  | _ :: _, [] => false
  | a :: p', b :: t' => N.eqb a b && startsWith p' t'
  end.

(** [t.split(sep)] for a one-character separator: always at least one
    segment, and [n] separators give [n + 1] segments. *)
Fixpoint split (sep : char16) (t : jsstring) : list jsstring :=
  match t with
  | [] => [[]]
  | c :: t' =>
      if N.eqb c sep then [] :: split sep t'
      else match split sep t' with
           | [] => [[c]]
           | seg :: segs => (c :: seg) :: segs
           end
  end.

(** [parts.join(sep)]. *)
Fixpoint Array_join (sep : jsstring) (parts : list jsstring) : jsstring :=
  match parts with
  | [] => []
  | [x] => x
  | x :: rest => x ++ sep ++ Array_join sep rest
  end.

(** ** Regular expressions *)

Record RegExp := mkRegExp { source : jsstring; global : bool }.

(** The characters with a syntactic role in a pattern other than [|]:
    [^ $ \ . * + ? ( ) [ ]]. *)
Definition syntaxCharacters : jsstring :=
  ofAscii "^$\.*+?()[]".

Definition isDigit (c : char16) : bool :=
  (N.leb 48 c && N.leb c 57)%bool.

Fixpoint skipDigits (t : jsstring) : jsstring :=
  match t with
  | [] => []
  | c :: t' => if isDigit c then skipDigits t' else t
  end.

(** The text after an opening brace completes a quantifier: [{n}], [{n,}]
    or [{n,m}], digits only.  Anything else (a space after the comma, for
    one) leaves the brace an ordinary pattern character (ECMAScript
    Annex B, patterns without the [u] flag). *)
Definition bracedQuantifier (t : jsstring) : bool :=
  match t with
  | [] => false
  | c :: _ =>
      isDigit c &&
      match skipDigits t with
      | d :: r =>
          if N.eqb d 125 then true
          else if N.eqb d 44 then
            match skipDigits r with
            | e :: _ => N.eqb e 125
            | [] => false
            end
          else false
      | [] => false
      end
  end.

(** The pattern is an alternation of literal character sequences: it has
    no syntax character and no brace that opens a quantifier.  The matcher
    below is the ECMAScript matcher on such patterns. *)
Fixpoint literalSource (src : jsstring) : bool :=
  match src with
  | [] => true
  | c :: rest =>
      negb (existsb (N.eqb c) syntaxCharacters)
      && (if N.eqb c 123 then negb (bracedQuantifier rest) else true)
      && literalSource rest
  end.

(** The alternatives of a pattern, in source order. *)
Definition alternatives (r : RegExp) : list jsstring :=
  split 124%N (source r).

(** The match of the pattern anchored at the start of [t]: the first
    alternative, in order, that [t] starts with. *)
Definition matchAt (alts : list jsstring) (t : jsstring) : option jsstring :=
  List.find (fun a => startsWith a t) alts.

(** [RegExp.prototype.test] on a pattern without the [g] flag: is there
    an index of [t] (its length included) where the pattern matches. *)
Fixpoint search (alts : list jsstring) (t : jsstring) : bool :=
  match t with
  | [] => bool_decide (is_Some (matchAt alts []))
  | _ :: t' => bool_decide (is_Some (matchAt alts t)) || search alts t'
  end.

Definition test (r : RegExp) (t : jsstring) : bool :=
  search (alternatives r) t.

(** A match result: [match.index] and [match[0]]. *)
Record MatchResult := mkMatch { index : nat; matched : jsstring }.

(** The matches a global scan reports, in order.  [idx] is the index of
    the head of [t] in the whole text and [skip] the number of characters
    of [t] still covered by the previous match.  After an empty match the
    scan moves on by one character. *)
Fixpoint execAll (alts : list jsstring) (skip idx : nat) (t : jsstring)
  : list MatchResult :=
  match t with
  | [] =>
      match skip, matchAt alts [] with
      | O, Some a => [mkMatch idx a]
      | _, _ => []
      end
  | _ :: t' =>
      match skip with
      | S k => execAll alts k (S idx) t'
      | O =>
          match matchAt alts t with
          | Some a => mkMatch idx a :: execAll alts (length a - 1) (S idx) t'
          | None => execAll alts 0 (S idx) t'
          end
      end
  end.

(** [text.matchAll(r)]; the script only calls it on a pattern it has just
    built with the [g] flag. *)
Definition matchAll (r : RegExp) (t : jsstring) : list MatchResult :=
  execAll (alternatives r) 0 0 t.

(** The result string of [replace]: the text between the matches, with
    [v] in place of each match.  [pos] is the index in the whole text of
    the head of [rest]; a match that starts before [pos] is passed over. *)
Fixpoint substitute (ms : list MatchResult) (v : jsstring) (pos : nat)
  (rest : jsstring) : jsstring :=
  match ms with
  | [] => rest
  | m :: ms' =>
      if Nat.leb pos (index m) then
        firstn (index m - pos) rest ++ v ++
        substitute ms' v (index m + length (matched m))
          (skipn (index m - pos + length (matched m)) rest)
      else substitute ms' v pos rest
  end.

(** [t.replace(r, v)] for a replacement string without [$]: every match
    of a global pattern, the first match of any other. *)
Definition replace (r : RegExp) (v : jsstring) (t : jsstring) : jsstring :=
  let ms := execAll (alternatives r) 0 0 t in
  substitute (if global r then ms else firstn 1 ms) v 0 t.

(** ** The punctuation table *)

(** A regular expression literal [/src/g]. *)
Definition re_g (src : jsstring) : RegExp := mkRegExp src true.

(** The table, in source order.  The patterns are given by their code
    units: comma and enumeration comma; full stop; question mark; colon;
    semicolon; single quotes; double quotes (to the straight double
    quote, code unit 34); parentheses; brackets; angle brackets; and the
    ellipsis followed by [{1, 2}]. *)
Definition PUNCTUATION_MAP : list (RegExp * jsstring) :=
  [ (re_g [65292; 124; 12289]%N, ofAscii ",")   (* U+FF0C | U+3001 *)
  ; (re_g [12290]%N, ofAscii ".")               (* U+3002 *)
  ; (re_g [65311]%N, ofAscii "?")               (* U+FF1F *)
  ; (re_g [65306]%N, ofAscii ":")               (* U+FF1A *)
  ; (re_g [65307]%N, ofAscii ";")               (* U+FF1B *)
  ; (re_g [8216; 124; 8217]%N, ofAscii "'")     (* U+2018 | U+2019 *)
  ; (re_g [8220; 124; 8221]%N, [34]%N)          (* U+201C | U+201D *)
  ; (re_g [65288]%N, ofAscii "(")               (* U+FF08 *)
  ; (re_g [65289]%N, ofAscii ")")               (* U+FF09 *)
  ; (re_g [12304]%N, ofAscii "[")               (* U+3010 *)
  ; (re_g [12305]%N, ofAscii "]")               (* U+3011 *)
  ; (re_g [12298]%N, ofAscii "<")               (* U+300A *)
  ; (re_g [12299]%N, ofAscii ">")               (* U+300B *)
  ; (re_g (8230%N :: ofAscii "{1, 2}"), ofAscii "...")   (* U+2026 *)
  ].

(** [new RegExp(PUNCTUATION_MAP.map(([k]) => k.source).join('|'))] *)
Definition CHECKER_PATTERN : RegExp :=
  mkRegExp
    (Array_join [124]%N (List.map (fun kv => source (fst kv)) PUNCTUATION_MAP))
    false.

(** ** The text operations *)

(** Every rule in turn, each on the result of the one before. *)
Definition fixPunctuation (content : jsstring) : jsstring :=
  fold_left (fun result kv => replace (fst kv) (snd kv) result)
            PUNCTUATION_MAP content.

(** A coordinate [[lineNumber, colNumber, text[anchor]]]; indexing a
    string out of range gives [undefined], here [None]. *)
Definition Coordinate : Type := nat * nat * option N.

(** The body of the loop over the matches: the text up to and with the
    character at [match.index] is split into lines. *)
Definition coordinateOf (text : jsstring) (m : MatchResult) : Coordinate :=
  let anchor := index m in
  let lines := split 10%N (firstn (anchor + 1) text) in
  let lineNumber := length lines in
  let colNumber := length (List.last lines []) + 1 in
  (lineNumber, colNumber, nth_error text anchor).

(** One coordinate for each match of the pattern, made global. *)
Definition coordinatesOfChars (pattern : RegExp) (text : jsstring)
  : list Coordinate :=
  let globalPattern := mkRegExp (source pattern) true in
  let matches := matchAll globalPattern text in
  List.map (coordinateOf text) matches.

(** ** Files, console and process *)

(** What the script prints, one constructor per [console.log] template,
    with the values the template interpolates. *)
Inductive Message :=
| MsgLinting (fix_ : bool)
| MsgClean (path : jsstring)
| MsgFixed (path : jsstring)
| MsgErrored (path : jsstring)
| MsgCoordinate (path : jsstring) (lineNumber colNumber : nat) (char : option N)
| MsgScanning (count : nat)
| MsgFinding (pattern : jsstring)
| MsgSummaryErrors (errCount errFileCount : nat)
| MsgNoError
| MsgSummaryFixed (fixedFileCount : nat).

(** The state outside the script: the files by absolute path, the lines
    printed so far and the [writeFileSync] calls made so far. *)
Record World := mkWorld {
  files : gmap (list N) (list N);
  console : list Message;
  writes : list (list N * list N)
}.

(** How a computation ends: it returns, the process exits with a status
    ([exit(code)]), or an exception escapes. *)
Inductive Outcome (A : Type) :=
| Returned (a : A) (w : World)
| Exited (code : nat) (w : World)
| Thrown (w : World).
Arguments Returned {A} a w.
Arguments Exited {A} code w.
Arguments Thrown {A} w.

(** A computation of the script. *)
Definition Run (A : Type) : Type := World -> Outcome A.

#[global] Instance Run_ret : MRet Run := fun A a w => Returned a w.

#[global] Instance Run_bind : MBind Run := fun A B f m w =>
  match m w with
  | Returned a w' => f a w'
  | Exited code w' => Exited code w'
  | Thrown w' => Thrown w'
  end.

(** The world a computation leaves. *)
Definition worldOf {A} (o : Outcome A) : World :=
  match o with
  | Returned _ w | Exited _ w | Thrown w => w
  end.

(** The status the process ends with: 0 unless [exit] said otherwise; an
    uncaught exception ends it with 1. *)
Definition exitStatus {A} (o : Outcome A) : nat :=
  match o with
  | Returned _ _ => 0
  | Exited code _ => code
  | Thrown _ => 1
  end.

(** [console.log] adds a line. *)
Definition console_log (m : Message) : Run unit := fun w =>
  Returned tt (mkWorld (files w) (console w ++ [m]) (writes w)).

(** [readFileSync(path, { encoding: 'utf8' })] throws when there is no
    such file. *)
Definition readFileSync (path : jsstring) : Run jsstring := fun w =>
  match files w !! path with
  | Some content => Returned content w
  | None => Thrown w
  end.

(** [writeFileSync(path, data)] creates or replaces the file. *)
Definition writeFileSync (path data : jsstring) : Run unit := fun w =>
  Returned tt (mkWorld (<[path := data]> (files w)) (console w)
                       (writes w ++ [(path, data)])).

(** [exit(code)] of [node:process] ends the process at once. *)
Definition exit (code : nat) : Run unit := fun w => Exited code w.

(** [for (const x of xs) body], with the variables the body assigns as
    the loop state [s]. *)
Fixpoint forOf {A S : Type} (xs : list A) (body : S -> A -> Run S) (s : S)
  : Run S :=
  match xs with
  | [] => mret s
  | x :: xs' => s' ← body s x; forOf xs' body s'
  end.

(** The pattern to match docs. *)
Definition DOCS_PATTERN : jsstring := ofAscii "./docs/MatrixOne/**/*.md".

(** The counters [iterateFiles] declares before its loop. *)
Record Counters := mkCounters {
  fixedFileCount : nat;
  errFlag : bool;
  errFileCount : nat;
  errCount : nat
}.

Section Script.

(** [join] of [node:path] and the directory of the script. *)
Variable join : jsstring -> jsstring -> jsstring.
Variable __dirname : jsstring.

(** The absolute path of a path relative to the repository. *)
Definition resolveAbsPath (relPath : jsstring) : jsstring :=
  join (__dirname ++ ofAscii "/../") relPath.

(** The body of the loop over [paths]; [continue] ends it early. *)
Definition iterateFile (processer : jsstring -> jsstring)
  (fix_ absolute : bool) (st : Counters) (path : jsstring) : Run Counters :=
  let absPath := if absolute then path else resolveAbsPath path in
  fileContent ← readFileSync absPath;
  if negb (test CHECKER_PATTERN fileContent) then
    console_log (MsgClean path);;
    mret st
  else if fix_ then
    let fixedContent := processer fileContent in
    writeFileSync absPath fixedContent;;
    console_log (MsgFixed path);;
    mret (mkCounters (S (fixedFileCount st)) (errFlag st)
                     (errFileCount st) (errCount st))
  else
    let coordinates := coordinatesOfChars CHECKER_PATTERN fileContent in
    console_log (MsgErrored path);;
    forOf coordinates
      (fun _ c => let '(lineNumber, colNumber, char) := c in
                  console_log (MsgCoordinate path lineNumber colNumber char))
      tt;;
    mret (mkCounters (fixedFileCount st) true
                     (S (errFileCount st))
                     (errCount st + length coordinates)).

(** The loop of [iterateFiles], from the initial counters. *)
Definition scanFiles (paths : list jsstring)
  (processer : jsstring -> jsstring) (fix_ absolute : bool) : Run Counters :=
  forOf paths (iterateFile processer fix_ absolute)
        (mkCounters 0 false 0 0).

(** The header line, the loop, the two closing lines and the summary;
    detection mode exits with 1 when the error flag is set. *)
Definition iterateFiles (paths : list jsstring)
  (processer : jsstring -> jsstring) (fix_ absolute : bool) : Run unit :=
  console_log (MsgLinting fix_);;
  st ← scanFiles paths processer fix_ absolute;
  console_log (MsgScanning (length paths));;
  console_log (MsgFinding DOCS_PATTERN);;
  if negb fix_ then
    if errFlag st then
      console_log (MsgSummaryErrors (errCount st) (errFileCount st));;
      exit 1
    else
      console_log MsgNoError
  else
    if Nat.eqb (fixedFileCount st) 0 then
      console_log MsgNoError
    else
      console_log (MsgSummaryFixed (fixedFileCount st)).

End Script.

(** ** The command line *)

(** A value of the options object: [true], or the array of paths. *)
Inductive OptionValue :=
| OptTrue
| OptPaths (paths : list (list N)).

(** How an expression ends: with a value, or with a [TypeError]. *)
Inductive Completion (A : Type) :=
| Normal (a : A)
| TypeError.
Arguments Normal {A} a.
Arguments TypeError {A}.

(** [/^--/.test(flag)] *)
Definition isFlag (flag : jsstring) : bool :=
  startsWith (ofAscii "--") flag.

(** [options[key] = true] on an object literal: an own property, except
    for the key [__proto__], whose setter ignores a value that is no
    object. *)
Definition setTrue (key : jsstring) (options : gmap (list N) OptionValue)
  : gmap (list N) OptionValue :=
  if bool_decide (key = ofAscii "__proto__") then options
  else <[key := OptTrue]> options.

(** The body of the loop of [parseArgv] for one argument.  Pushing onto
    [options.paths] when a [--paths] flag has made it [true] is a
    [TypeError]. *)
Definition parseFlag (options : gmap (list N) OptionValue) (flag : jsstring)
  : Completion (gmap (list N) OptionValue) :=
  if isFlag flag then
    Normal (setTrue (skipn 2 flag) options)
  else
    match options !! ofAscii "paths" with
    | Some (OptPaths paths) =>
        Normal (<[ofAscii "paths" := OptPaths (paths ++ [flag])]> options)
    | Some OptTrue => TypeError
    | None => Normal (<[ofAscii "paths" := OptPaths [flag]]> options)
    end.

(** The loop of [parseArgv] as written: while the copy has more than two
    elements, [cpy.splice(2, 1)] takes the third one out.  [fuel] bounds
    the number of rounds; [None] is a loop cut short. *)
Fixpoint spliceLoop (fuel : nat) (cpy : list jsstring)
  (options : gmap (list N) OptionValue)
  : option (list jsstring * Completion (gmap (list N) OptionValue)) :=
  if Nat.ltb 2 (length cpy) then
    match fuel with
    | O => None
    | S fuel' =>
        match nth_error cpy 2 with
        | Some flag =>
            let cpy' := firstn 2 cpy ++ skipn 3 cpy in
            match parseFlag options flag with
            | Normal options' => spliceLoop fuel' cpy' options'
            | TypeError => Some (cpy', TypeError)
            end
        | None => None
        end
    end
  else Some (cpy, Normal options).

(** The same loop over the arguments it takes out, in order. *)
Fixpoint parseArgs (args : list jsstring)
  (options : gmap (list N) OptionValue)
  : Completion (gmap (list N) OptionValue) :=
  match args with
  | [] => Normal options
  | flag :: args' =>
      match parseFlag options flag with
      | Normal options' => parseArgs args' options'
      | TypeError => TypeError
      end
  end.

(** [parseArgv(argv)]: the arguments from the third on. *)
Definition parseArgv (argv : list jsstring)
  : Completion (gmap (list N) OptionValue) :=
  parseArgs (skipn 2 argv) ∅.

Section Entry.

(** [join] of [node:path], the directory of the script, and what
    [glob(pattern)] of [fast-glob] finds in the file system. *)
Variable join : jsstring -> jsstring -> jsstring.
Variable __dirname : jsstring.
Variable glob : jsstring -> World -> list jsstring.

(** [main()], with the options read from the command line.
    [lintStagedPaths?.length] is the length of the array of paths, and
    [undefined] (here 0) when there is none. *)
Definition main (options : gmap (list N) OptionValue) : Run unit := fun w =>
  let lintStagedPaths := options !! ofAscii "paths" in
  let lintStagedLength :=
    match lintStagedPaths with
    | Some (OptPaths paths) => length paths
    | _ => 0
    end in
  let paths :=
    match lintStagedPaths with
    | Some (OptPaths paths) =>
        if Nat.ltb 0 lintStagedLength then paths else glob DOCS_PATTERN w
    | _ => glob DOCS_PATTERN w
    end in
  let fix_ :=
    match options !! ofAscii "fix" with
    | Some _ => true
    | None => false
    end in
  iterateFiles join __dirname paths fixPunctuation fix_
               (Nat.ltb 0 lintStagedLength) w.

(** The module from top to bottom: the options are parsed first, then
    [main] runs. *)
Definition script (argv : list jsstring) : Run unit := fun w =>
  match parseArgv argv with
  | Normal options => main options w
  | TypeError => Thrown w
  end.

End Entry.

(** * Notions for the properties *)

(** ** Occurrences and counts *)

(** [a] occurs in [t] as a substring. *)
Definition occursIn (a t : jsstring) : Prop :=
  exists pre suf, t = pre ++ a ++ suf.

(** Some rule's matcher occurs in the text. *)
Definition ruleOccurs (t : jsstring) : Prop :=
  exists kv a, In kv PUNCTUATION_MAP /\ In a (alternatives (fst kv))
               /\ occursIn a t.

(** The result of a global [replace] computed in one pass over the text,
    with the same [skip] counter as [execAll]. *)
Fixpoint splice (alts : list jsstring) (v : jsstring) (skip : nat)
  (t : jsstring) : jsstring :=
  match t with
  | [] =>
      match skip, matchAt alts [] with
      | O, Some _ => v
      | _, _ => []
      end
  | c :: t' =>
      match skip with
      | S k => splice alts v k t'
      | O =>
          match matchAt alts t with
          | Some [] => v ++ c :: splice alts v 0 t'
          | Some (_ :: a') => v ++ splice alts v (length a') t'
          | None => c :: splice alts v 0 t'
          end
      end
  end.

(** All the alternatives of the rule are single characters, and [x] is
    one of them. *)
Definition removes (kv : RegExp * jsstring) (x : N) : bool :=
  forallb (fun a => Nat.eqb (length a) 1) (alternatives (fst kv))
  && existsb (fun a => startsWith a [x]) (alternatives (fst kv)).

(** Some replacement of [rules] has the character [x]. *)
Definition introduces (rules : list (RegExp * jsstring)) (x : N) : bool :=
  existsb (fun kv => existsb (N.eqb x) (snd kv)) rules.

(** The characters with a rule of their own, in table order. *)
Definition fullWidthCharacters : jsstring :=
  [65292; 12289; 12290; 65311; 65306; 65307; 8216; 8217; 8220; 8221;
   65288; 65289; 12304; 12305; 12298; 12299]%N.

(** The one longer alternative: the ellipsis and the six characters
    [{1, 2}] after it. *)
Definition ellipsisAlternative : jsstring :=
  [8230; 123; 49; 44; 32; 50; 125]%N.

(** The number of characters of [t] that are in [cs]. *)
Fixpoint countOf (cs : jsstring) (t : jsstring) : nat :=
  match t with
  | [] => 0
  | c :: t' => (if existsb (N.eqb c) cs then 1 else 0) + countOf cs t'
  end.

(** The rules before the ellipsis rule. *)
Definition characterRules : list (RegExp * jsstring) :=
  firstn 13 PUNCTUATION_MAP.

(** The characters of each of them. *)
Definition characterClasses : list jsstring :=
  List.map (fun kv => concat (alternatives (fst kv))) characterRules.

(** ** Example texts *)

(** [He said “hi”…]: curly double quotes and one U+2026. *)
Definition quotedEllipsis : jsstring :=
  (ofAscii "He said " ++ [8220] ++ ofAscii "hi" ++ [8221; 8230])%N.

(** [你好，世界。] *)
Definition helloWorld : jsstring :=
  [20320; 22909; 65292; 19990; 30028; 12290]%N.

(** [a…{1, 2}，]: a match of seven characters and one of one. *)
Definition ellipsisLine : jsstring :=
  ([97] ++ ellipsisAlternative ++ [65292])%N.

(** A text without full-width punctuation: [你好, world.] *)
Definition plainText : jsstring :=
  ([20320; 22909] ++ ofAscii ", world.")%N.

(** ** Runs *)

(** The line printed for one coordinate. *)
Definition coordinateMessage (path : jsstring) (c : Coordinate) : Message :=
  let '(lineNumber, colNumber, char) := c in
  MsgCoordinate path lineNumber colNumber char.

(** The world after printing [ms]. *)
Definition addConsole (w : World) (ms : list Message) : World :=
  mkWorld (files w) (console w ++ ms) (writes w).

(** The counters of detection mode: every errored file adds at least one
    error, and the flag is set exactly when there is an error. *)
Definition countersConsistent (st : Counters) : Prop :=
  errFileCount st <= errCount st /\ (errFlag st = true <-> 0 < errCount st).

Section RunNotions.

Variable join : jsstring -> jsstring -> jsstring.
Variable __dirname : jsstring.

(** The absolute path the loop reads and writes for [path]. *)
Definition absPathOf (absolute : bool) (path : jsstring) : jsstring :=
  if absolute then path else resolveAbsPath join __dirname path.

(** Every file of the list can be read. *)
Definition readable (absolute : bool) (fs : gmap (list N) (list N))
  (paths : list jsstring) : Prop :=
  forall p, In p paths -> is_Some (fs !! absPathOf absolute p).

(** What detection mode prints for one file. *)
Definition diagnostics (absolute : bool) (fs : gmap (list N) (list N))
  (path : jsstring) : list Message :=
  match fs !! absPathOf absolute path with
  | Some content =>
      if test CHECKER_PATTERN content then
        MsgErrored path ::
        List.map (coordinateMessage path)
                 (coordinatesOfChars CHECKER_PATTERN content)
      else [MsgClean path]
  | None => []
  end.

(** The counters of detection mode after one file. *)
Definition tallyFile (absolute : bool) (fs : gmap (list N) (list N))
  (st : Counters) (path : jsstring) : Counters :=
  match fs !! absPathOf absolute path with
  | Some content =>
      if test CHECKER_PATTERN content then
        mkCounters (fixedFileCount st) true (S (errFileCount st))
          (errCount st
           + length (coordinatesOfChars CHECKER_PATTERN content))
      else st
  | None => st
  end.

(** The counters of detection mode after a list of files. *)
Definition tally (absolute : bool) (fs : gmap (list N) (list N))
  (paths : list jsstring) (st : Counters) : Counters :=
  fold_left (tallyFile absolute fs) paths st.

(** The file at [path] has a match. *)
Definition hasMatch (absolute : bool) (fs : gmap (list N) (list N))
  (path : jsstring) : bool :=
  match fs !! absPathOf absolute path with
  | Some content => test CHECKER_PATTERN content
  | None => false
  end.

(** What a fix-mode loop has done to the files when it returns: [new] are
    the writes it made. *)
Definition fixOutcome (absolute : bool) (paths : list jsstring)
  (w w' : World) (new : list (list N * list N)) : Prop :=
  writes w' = writes w ++ new
  /\ NoDup (List.map fst new)
  /\ (forall q d,
        In (q, d) new <->
        In q (List.map (absPathOf absolute) paths)
        /\ exists c, files w !! q = Some c
                     /\ test CHECKER_PATTERN c = true
                     /\ d = fixPunctuation c)
  /\ (forall q c,
        In q (List.map (absPathOf absolute) paths) ->
        files w !! q = Some c -> test CHECKER_PATTERN c = true ->
        files w' !! q = Some (fixPunctuation c))
  /\ (forall q,
        ~ In q (List.map (absPathOf absolute) paths)
        \/ (exists c, files w !! q = Some c
                      /\ test CHECKER_PATTERN c = false) ->
        files w' !! q = files w !! q).

End RunNotions.

(** ** An example run *)

(** A stand-in for [join] of [node:path], and a directory for the
    script. *)
Definition exampleJoin (a b : jsstring) : jsstring := a ++ b.
Definition exampleDirname : jsstring := ofAscii "/repo/scripts".

(** Two files, one with full-width punctuation and one without; the
    first is listed twice. *)
Definition exampleWorld : World :=
  mkWorld (<[ofAscii "/repo/scripts/../docs/a.md" := helloWorld]>
             (<[ofAscii "/repo/scripts/../docs/b.md" := plainText]> ∅))
          [] [].

(** The paths given to the script, relative to its directory. *)
Definition examplePaths : list jsstring :=
  [ofAscii "docs/a.md"; ofAscii "docs/b.md"; ofAscii "docs/a.md"].

(** ** The command line *)

(** The state of the options in which a path can still be pushed. *)
Definition pathsPushable (options : gmap (list N) OptionValue) : Prop :=
  options !! ofAscii "paths" <> Some OptTrue.

(** The paths pushed so far. *)
Definition pathsOf (options : gmap (list N) OptionValue) : list jsstring :=
  match options !! ofAscii "paths" with
  | Some (OptPaths paths) => paths
  | _ => []
  end.


(** The arguments of the example in the comment of [parseArgv]. *)
Definition exampleArgv : list jsstring :=
  [ofAscii "node"; ofAscii "./scripts/fixPunctuation"; ofAscii "--fix";
   ofAscii "C:/dir/example-a.md"; ofAscii "C:/dir/subdir/example-b.md"].

(** ** The combined pattern of a table *)

(** The construction of [CHECKER_PATTERN], for any table. *)
Definition combinedPattern (rules : list (RegExp * jsstring)) : RegExp :=
  mkRegExp (Array_join [124]%N (List.map (fun kv => source (fst kv)) rules))
           false.

(** ** The order of the matches *)

(** Where the scan resumes after a match: after its end, and one further
    after an empty match. *)
Definition resumeIndex (m : MatchResult) : nat :=
  index m + Nat.max 1 (length (matched m)).

(** The matches start at [lo] or later, each at or after the point where
    the scan resumed after the one before. *)
Fixpoint ascending (lo : nat) (ms : list MatchResult) : Prop :=
  match ms with
  | [] => True
  | m :: ms' => lo <= index m /\ ascending (resumeIndex m) ms'
  end.

(** ** Lines and columns, counted directly *)

(** The number of characters after the last newline of [prefix]: the
    count starts again at each newline. *)
Definition columnOffset (prefix : jsstring) : nat :=
  fold_left (fun n c => if N.eqb c 10 then 0 else S n) prefix 0.

(** ** The half-width counterpart of a character *)

(** The full-width characters of the table with the character that
    replaces each. *)
Definition halfWidthTable : list (N * N) :=
  [ (65292, 44); (12289, 44); (12290, 46); (65311, 63); (65306, 58);
    (65307, 59); (8216, 39); (8217, 39); (8220, 34); (8221, 34);
    (65288, 40); (65289, 41); (12304, 91); (12305, 93); (12298, 60);
    (12299, 62) ]%N.

(** The character itself when it is not in the table. *)
Definition halfWidth (c : N) : N :=
  match List.find (fun p => N.eqb c (fst p)) halfWidthTable with
  | Some p => snd p
  | None => c
  end.

(** What one rule over single characters does to a character. *)
Definition characterStep (kv : RegExp * jsstring) (c : N) : N :=
  if existsb (N.eqb c) (concat (alternatives (fst kv)))
  then hd c (snd kv) else c.

(** ** What a run counts *)

Section CountNotions.

Variable join : jsstring -> jsstring -> jsstring.
Variable __dirname : jsstring.

(** The number of coordinates of the file at [path]. *)
Definition matchCount (absolute : bool) (fs : gmap (list N) (list N))
  (path : jsstring) : nat :=
  match fs !! absPathOf join __dirname absolute path with
  | Some content => length (coordinatesOfChars CHECKER_PATTERN content)
  | None => 0
  end.

End CountNotions.

(** ** Counting what a pattern matches *)

(** The number of characters of [t] that the matches of a scan with the
    pattern [r] cover. *)
Definition matchedCharacters (r : RegExp) (t : jsstring) : nat :=
  list_sum (List.map (fun m => length (matched m)) (matchAll r t)).

(** The number of positions of [t], its end included, at which the
    pattern matches. *)
Fixpoint matchPositions (alts : list jsstring) (t : jsstring) : nat :=
  match t with
  | [] => match matchAt alts [] with Some _ => 1 | None => 0 end
  | _ :: t' =>
      match matchAt alts t with Some _ => 1 | None => 0 end
      + matchPositions alts t'
  end.

(** * Lemmas *)

(** ** Prefixes, occurrences and the scan *)

Lemma startsWith_true (p t : jsstring) :
  startsWith p t = true <-> exists suf, t = p ++ suf.
Proof.
  revert t; induction p as [|a p IH]; intros t; simpl.
  - split; [intros _; exists t; reflexivity | reflexivity].
  - destruct t as [|b t].
    + split; [discriminate | intros [suf H]; discriminate].
    + rewrite andb_true_iff, N.eqb_eq, IH. split.
      * intros [-> [suf ->]]. exists suf. reflexivity.
      * intros [suf H]. injection H as -> ->. split; [reflexivity | eauto].
Qed.

Lemma startsWith_length (p t : jsstring) :
  startsWith p t = true -> length p <= length t.
Proof.
  intros [suf ->]%startsWith_true. rewrite length_app. lia.
Qed.

Lemma matchAt_Some (alts : list jsstring) (t a : jsstring) :
  matchAt alts t = Some a -> In a alts /\ startsWith a t = true.
Proof. unfold matchAt. intros H. apply (find_some _ _ H). Qed.

Lemma matchAt_None (alts : list jsstring) (t : jsstring) :
  matchAt alts t = None <-> forall a, In a alts -> startsWith a t = false.
Proof.
  unfold matchAt. split.
  - intros H a Ha. apply (find_none _ _ H a Ha).
  - induction alts as [|b alts IH]; intros H; simpl; [reflexivity|].
    rewrite (H b (or_introl eq_refl)). apply IH.
    intros a Ha. apply H. right. exact Ha.
Qed.

Lemma matchAt_is_Some (alts : list jsstring) (t : jsstring) :
  is_Some (matchAt alts t) <->
  exists a, In a alts /\ startsWith a t = true.
Proof.
  split.
  - intros [a Ha]. exists a. apply matchAt_Some. exact Ha.
  - intros [a [Ha Hs]]. destruct (matchAt alts t) eqn:E; [eauto|].
    rewrite (proj1 (matchAt_None alts t) E a Ha) in Hs. discriminate.
Qed.

Lemma occursIn_cons (a : jsstring) (c : N) (t : jsstring) :
  occursIn a (c :: t) <-> startsWith a (c :: t) = true \/ occursIn a t.
Proof.
  split.
  - intros [pre [suf H]]. destruct pre as [|d pre]; simpl in H.
    + left. apply startsWith_true. exists suf. exact H.
    + right. injection H as -> ->. exists pre, suf. reflexivity.
  - intros [[suf H]%startsWith_true | [pre [suf H]]].
    + exists [], suf. exact H.
    + exists (c :: pre), suf. simpl. rewrite H. reflexivity.
Qed.

Lemma occursIn_nil (a : jsstring) :
  occursIn a [] <-> startsWith a [] = true.
Proof.
  split.
  - intros [pre [suf H]]. symmetry in H.
    apply app_eq_nil in H as [_ H]. apply app_eq_nil in H as [-> _].
    reflexivity.
  - intros [suf H]%startsWith_true. exists [], suf. exact H.
Qed.

(** The search succeeds exactly when some alternative occurs. *)
Lemma search_true (alts : list jsstring) (t : jsstring) :
  search alts t = true <-> exists a, In a alts /\ occursIn a t.
Proof.
  induction t as [|c t IH]; simpl.
  - rewrite bool_decide_eq_true, matchAt_is_Some.
    split; intros [a [Ha H]]; exists a; (split; [exact Ha|]);
      apply occursIn_nil; exact H.
  - rewrite orb_true_iff, bool_decide_eq_true, matchAt_is_Some, IH. split.
    + intros [[a [Ha H]] | [a [Ha H]]]; exists a; (split; [exact Ha|]);
        apply occursIn_cons; auto.
    + intros [a [Ha [H|H]%occursIn_cons]]; [left | right]; eauto.
Qed.

Lemma search_false (alts : list jsstring) (t : jsstring) :
  search alts t = false <-> forall a, In a alts -> ~ occursIn a t.
Proof.
  rewrite <- not_true_iff_false, search_true. split.
  - intros H a Ha Ho. apply H. eauto.
  - intros H [a [Ha Ho]]. exact (H a Ha Ho).
Qed.

(** A text in which no alternative occurs has no match. *)
Lemma execAll_no_occurrence (alts : list jsstring) (t : jsstring) :
  search alts t = false -> forall skip idx, execAll alts skip idx t = [].
Proof.
  induction t as [|c t IH]; simpl; intros H skip idx.
  - apply bool_decide_eq_false in H.
    destruct skip; [|reflexivity].
    destruct (matchAt alts []) eqn:E; [|reflexivity].
    exfalso. apply H. eauto.
  - apply orb_false_iff in H as [H1 H2].
    apply bool_decide_eq_false in H1.
    destruct skip; [|apply IH; exact H2].
    destruct (matchAt alts (c :: t)) eqn:E.
    + exfalso. apply H1. eauto.
    + apply IH. exact H2.
Qed.

Lemma execAll_matches (alts : list jsstring) (t : jsstring) :
  search alts t = true -> execAll alts 0 0 t <> [].
Proof.
  generalize 0 at 2. induction t as [|c t IH]; simpl; intros idx H.
  - apply bool_decide_eq_true in H. destruct H as [a ->]. discriminate.
  - destruct (matchAt alts (c :: t)) eqn:E; [discriminate|].
    apply IH. apply orb_true_iff in H as [H|H]; [|exact H].
    apply bool_decide_eq_true in H. destruct H as [a H]. discriminate.
Qed.

Lemma replace_no_occurrence (r : RegExp) (v t : jsstring) :
  test r t = false -> replace r v t = t.
Proof.
  unfold test, replace. intros H.
  rewrite (execAll_no_occurrence _ _ H). destruct (global r); reflexivity.
Qed.

(** ** The table and the combined pattern *)

(** Every pattern of the table, and the combined one, is an alternation
    of literal sequences, and no replacement has a [$]. *)
Lemma PUNCTUATION_MAP_literal :
  forallb (fun kv => literalSource (source (fst kv))
                     && global (fst kv)
                     && negb (existsb (N.eqb 36) (snd kv)))
          PUNCTUATION_MAP = true
  /\ literalSource (source CHECKER_PATTERN) = true.
Proof. split; vm_compute; reflexivity. Qed.

(** With digits only between the braces the ellipsis pattern would have a
    quantifier; with the space it has none. *)
Lemma ellipsis_braces_literal :
  bracedQuantifier (ofAscii "1, 2}") = false
  /\ bracedQuantifier (ofAscii "1,2}") = true.
Proof. split; reflexivity. Qed.

(** The combined pattern tries the alternatives of the rules in table
    order. *)
Lemma CHECKER_PATTERN_alternatives :
  alternatives CHECKER_PATTERN =
  concat (List.map (fun kv => alternatives (fst kv)) PUNCTUATION_MAP).
Proof. vm_compute. reflexivity. Qed.

Lemma test_CHECKER_PATTERN (t : jsstring) :
  test CHECKER_PATTERN t = true <-> ruleOccurs t.
Proof.
  unfold test, ruleOccurs.
  rewrite search_true, CHECKER_PATTERN_alternatives. split.
  - intros [a [Ha Ho]]. apply in_concat in Ha as [l [Hl Ha]].
    apply in_map_iff in Hl as [kv [<- Hkv]]. eauto.
  - intros [kv [a [Hkv [Ha Ho]]]]. exists a. split; [|exact Ho].
    apply in_concat. exists (alternatives (fst kv)). split; [|exact Ha].
    apply in_map_iff. eauto.
Qed.

Lemma test_rule_false (t : jsstring) (kv : RegExp * jsstring) :
  test CHECKER_PATTERN t = false -> In kv PUNCTUATION_MAP ->
  test (fst kv) t = false.
Proof.
  intros H Hkv. apply not_true_iff_false. intros Ht.
  apply not_true_iff_false in H. apply H, test_CHECKER_PATTERN.
  apply search_true in Ht as [a [Ha Ho]]. exists kv, a. auto.
Qed.

(** Rules that do not match leave the text as it is. *)
Lemma fold_replace_no_occurrence (rules : list (RegExp * jsstring))
  (t : jsstring) :
  (forall kv, In kv rules -> test (fst kv) t = false) ->
  fold_left (fun result kv => replace (fst kv) (snd kv) result) rules t = t.
Proof.
  induction rules as [|kv rules IH]; intros H; simpl; [reflexivity|].
  rewrite replace_no_occurrence by (apply H; left; reflexivity).
  apply IH. intros kv' Hkv'. apply H. right. exact Hkv'.
Qed.

Lemma fixPunctuation_clean (t : jsstring) :
  test CHECKER_PATTERN t = false -> fixPunctuation t = t.
Proof.
  intros H. apply fold_replace_no_occurrence.
  intros kv Hkv. apply test_rule_false; assumption.
Qed.

Lemma coordinatesOfChars_clean (t : jsstring) :
  test CHECKER_PATTERN t = false -> coordinatesOfChars CHECKER_PATTERN t = [].
Proof.
  intros H. unfold coordinatesOfChars, matchAll.
  change (alternatives (mkRegExp (source CHECKER_PATTERN) true))
    with (alternatives CHECKER_PATTERN).
  unfold test in H. rewrite (execAll_no_occurrence _ _ H). reflexivity.
Qed.

(** ** Global replacement, character by character *)

Lemma substitute_execAll (alts : list jsstring) (v t : jsstring) :
  forall skip idx pre pos,
    pos + length pre = idx + skip ->
    substitute (execAll alts skip idx t) v pos (pre ++ skipn skip t)
    = pre ++ splice alts v skip t.
Proof.
  induction t as [|c t IH]; intros skip idx pre pos Hpos.
  - rewrite skipn_nil. simpl.
    destruct skip; [|reflexivity].
    destruct (matchAt alts []) as [a|]; [|reflexivity].
    simpl. replace (pos <=? idx) with true
      by (symmetry; apply Nat.leb_le; lia).
    replace (idx - pos) with (length pre) by lia.
    rewrite app_nil_r, firstn_all, skipn_all2 by lia.
    rewrite app_nil_r. reflexivity.
  - destruct skip as [|k].
    + simpl. destruct (matchAt alts (c :: t)) as [a|] eqn:E.
      * simpl. replace (pos <=? idx) with true
          by (symmetry; apply Nat.leb_le; lia).
        replace (idx - pos) with (length pre) by lia.
        rewrite firstn_app, firstn_all, Nat.sub_diag, firstn_O, app_nil_r.
        rewrite skipn_app.
        rewrite skipn_all2 by lia.
        replace (length pre + length a - length pre) with (length a) by lia.
        simpl. f_equal. f_equal.
        destruct a as [|a0 a']; simpl.
        -- change (c :: t) with ([c] ++ skipn 0 t).
           rewrite (IH 0 (S idx) [c] (idx + 0)) by (simpl; lia).
           reflexivity.
        -- rewrite Nat.sub_0_r.
           change (skipn (length a') t) with ([] ++ skipn (length a') t).
           rewrite (IH (length a') (S idx) [] (idx + S (length a')))
             by (simpl; lia).
           reflexivity.
      * change (pre ++ c :: t) with (pre ++ [c] ++ skipn 0 t).
        rewrite app_assoc.
        rewrite (IH 0 (S idx) (pre ++ [c]) pos)
          by (rewrite length_app; simpl; lia).
        rewrite <- app_assoc. reflexivity.
    + simpl. apply IH. lia.
Qed.

Lemma replace_global (r : RegExp) (v t : jsstring) :
  global r = true -> replace r v t = splice (alternatives r) v 0 t.
Proof.
  intros Hg. unfold replace. rewrite Hg.
  apply (substitute_execAll (alternatives r) v t 0 0 [] 0). reflexivity.
Qed.

(** Every character of the result comes from the text or from the
    replacement. *)
Lemma splice_In (alts : list jsstring) (v t : jsstring) (x : N) :
  forall skip, In x (splice alts v skip t) -> In x v \/ In x t.
Proof.
  induction t as [|c t IH]; intros skip H; simpl in H.
  - destruct skip; [|contradiction].
    destruct (matchAt alts []); [auto | contradiction].
  - destruct skip as [|k].
    + destruct (matchAt alts (c :: t)) as [[|a0 a']|].
      * apply in_app_or in H as [H|[H|H]]; [auto | subst; simpl; auto |].
        destruct (IH _ H); simpl; auto.
      * apply in_app_or in H as [H|H]; [auto|].
        destruct (IH _ H); simpl; auto.
      * destruct H as [H|H]; [subst; simpl; auto|].
        destruct (IH _ H); simpl; auto.
    + destruct (IH _ H); simpl; auto.
Qed.

(** A rule over single characters leaves none of them behind. *)
Lemma splice_removes (kv : RegExp * jsstring) (v t : jsstring) (x : N) :
  removes kv x = true ->
  In x (splice (alternatives (fst kv)) v 0 t) -> In x v.
Proof.
  unfold removes. intros [Hall Hx]%andb_true_iff.
  rewrite forallb_forall in Hall.
  induction t as [|c t IH]; simpl; intros H.
  - destruct (matchAt _ []); [assumption | contradiction].
  - destruct (matchAt (alternatives (fst kv)) (c :: t)) as [a|] eqn:E.
    + apply matchAt_Some in E as [Ha Hs].
      specialize (Hall a Ha). apply Nat.eqb_eq in Hall.
      destruct a as [|a0 [|a1 a']]; try discriminate.
      simpl in H. apply in_app_or in H as [H|H]; auto.
    + destruct H as [->|H]; [|auto].
      exfalso. apply existsb_exists in Hx as [a [Ha Hs]].
      pose proof (proj1 (matchAt_None _ _) E a Ha) as Hn.
      specialize (Hall a Ha). apply Nat.eqb_eq in Hall.
      destruct a as [|a0 [|a1 a']]; try discriminate.
      simpl in Hs, Hn. rewrite andb_true_r in *. congruence.
Qed.

(** A character of the fixed text either comes from a replacement, or was
    in the input and no single-character rule is about it. *)
Lemma fold_replace_In (rules : list (RegExp * jsstring)) (x : N) :
  (forall kv, In kv rules -> global (fst kv) = true) ->
  forall t,
    In x (fold_left (fun result kv => replace (fst kv) (snd kv) result)
                    rules t) ->
    introduces rules x = true
    \/ (In x t /\ existsb (fun kv => removes kv x) rules = false).
Proof.
  induction rules as [|kv rules IH]; intros Hg t H; simpl in *.
  - right. auto.
  - assert (Hg' : forall kv', In kv' rules -> global (fst kv') = true)
      by (intros; apply Hg; auto).
    destruct (existsb (N.eqb x) (snd kv)) eqn:Hv; [left; reflexivity|].
    destruct (IH Hg' _ H) as [Hi | [Hx Hr]]; [left; exact Hi|].
    right. rewrite replace_global in Hx by (apply Hg; auto).
    assert (Hnv : ~ In x (snd kv)).
    { intros Hin. apply not_true_iff_false in Hv. apply Hv.
      apply existsb_exists. exists x. split; [exact Hin | apply N.eqb_refl]. }
    split.
    + destruct (splice_In _ _ _ _ _ Hx); [contradiction | assumption].
    + rewrite Hr, orb_false_r. apply not_true_iff_false. intros Hrem.
      apply Hnv. eapply splice_removes; eassumption.
Qed.

(** ** A multi-character pattern after its own replacement *)

Section OnePattern.

(** The pattern [e :: q], where [e] does not occur in the replacement
    [v0 :: v'] and [v0] does not occur in [q]: the ellipsis rule, with
    [e] the ellipsis and [v0] the full stop. *)
Variables (e : N) (q : jsstring) (v0 : N) (v' : jsstring).
Hypothesis e_fresh : ~ In e (v0 :: v').
Hypothesis v0_fresh : ~ In v0 q.

Let p := e :: q.
Let v := v0 :: v'.

Lemma matchAt_one (t : jsstring) :
  matchAt [p] t = if startsWith p t then Some p else None.
Proof. reflexivity. Qed.

(** Where the result starts with the tail of the pattern, so did the
    text. *)
Lemma splice_startsWith (s : jsstring) :
  ~ In v0 s ->
  forall t, startsWith s (splice [p] v 0 t) = true -> startsWith s t = true.
Proof.
  induction s as [|x s IH]; intros Hs t H; [reflexivity|].
  destruct t as [|c t]; [simpl in H; discriminate|].
  cbn [splice] in H. rewrite matchAt_one in H.
  destruct (startsWith p (c :: t)).
  - exfalso. simpl in H. apply andb_true_iff in H as [H _].
    apply N.eqb_eq in H. apply Hs. left. exact H.
  - simpl in H |- *. apply andb_true_iff in H as [-> H]. simpl.
    apply IH; [|exact H]. intros Hin. apply Hs. right. exact Hin.
Qed.

Lemma search_app_fresh (s x : jsstring) :
  ~ In e s -> search [p] (s ++ x) = search [p] x.
Proof.
  induction s as [|d s IH]; intros Hs; [reflexivity|].
  cbn [app search]. rewrite matchAt_one. simpl.
  destruct (N.eqb_spec e d) as [->|_]; [exfalso; apply Hs; left; reflexivity|].
  simpl. apply IH. intros Hin. apply Hs. right. exact Hin.
Qed.

(** The pattern does not occur in the result of its replacement. *)
Lemma splice_no_occurrence (t : jsstring) :
  forall skip, search [p] (splice [p] v skip t) = false.
Proof.
  induction t as [|c t IH]; intros skip.
  - simpl. destruct skip; reflexivity.
  - destruct skip as [|k]; [|apply IH].
    cbn [splice]. rewrite matchAt_one.
    destruct (startsWith p (c :: t)) eqn:E.
    + change (search [p] (v ++ splice [p] v (length q) t) = false).
      rewrite (search_app_fresh v _ e_fresh). apply IH.
    + cbn [search]. rewrite IH, orb_false_r, matchAt_one.
      destruct (startsWith p (c :: splice [p] v 0 t)) eqn:E'; [|reflexivity].
      exfalso. simpl in E, E'. apply andb_true_iff in E' as [He Hq].
      rewrite He in E. simpl in E.
      rewrite (splice_startsWith q v0_fresh t Hq) in E. discriminate.
Qed.

End OnePattern.

(** ** The fixed text has no match left *)

Lemma CHECKER_PATTERN_alternatives_split :
  alternatives CHECKER_PATTERN =
  List.map (fun c => [c]) fullWidthCharacters ++ [ellipsisAlternative].
Proof. vm_compute. reflexivity. Qed.

Lemma PUNCTUATION_MAP_global (kv : RegExp * jsstring) :
  In kv PUNCTUATION_MAP -> global (fst kv) = true.
Proof.
  intros H.
  assert (Hall : forallb (fun kv => global (fst kv)) PUNCTUATION_MAP = true)
    by reflexivity.
  rewrite forallb_forall in Hall. apply Hall. exact H.
Qed.

Lemma occursIn_single (c : N) (t : jsstring) : occursIn [c] t <-> In c t.
Proof.
  split.
  - intros [pre [suf ->]]. apply in_or_app. right. left. reflexivity.
  - intros H. apply in_split in H as [pre [suf ->]]. exists pre, suf.
    reflexivity.
Qed.

Lemma fixPunctuation_no_character (t : jsstring) (x : N) :
  In x fullWidthCharacters -> ~ In x (fixPunctuation t).
Proof.
  intros Hx Hin. unfold fixPunctuation in Hin.
  apply (fold_replace_In _ _ PUNCTUATION_MAP_global) in Hin.
  unfold fullWidthCharacters in Hx. simpl in Hx.
  repeat (destruct Hx as [<- | Hx];
          [destruct Hin as [Hi | [_ Hr]];
           [vm_compute in Hi | vm_compute in Hr]; discriminate|]).
  contradiction.
Qed.

Lemma fixPunctuation_no_ellipsis (t : jsstring) :
  search [ellipsisAlternative] (fixPunctuation t) = false.
Proof.
  unfold fixPunctuation.
  change PUNCTUATION_MAP
    with (firstn 13 PUNCTUATION_MAP ++
          [(re_g ellipsisAlternative, ofAscii "...")]).
  rewrite fold_left_app. cbn [fold_left fst snd].
  rewrite replace_global by reflexivity.
  change (alternatives (re_g ellipsisAlternative))
    with [(8230 :: [123; 49; 44; 32; 50; 125])%N].
  change (ofAscii "...") with (46 :: [46; 46])%N.
  apply splice_no_occurrence.
  - simpl. intros [H|[H|[H|[]]]]; discriminate.
  - simpl. intros H.
    repeat (destruct H as [H|H]; [discriminate|]). contradiction.
Qed.

(** After [fixPunctuation] the combined pattern finds nothing. *)
Lemma fixPunctuation_no_match (t : jsstring) :
  test CHECKER_PATTERN (fixPunctuation t) = false.
Proof.
  unfold test. apply search_false. intros a Ha.
  rewrite CHECKER_PATTERN_alternatives_split in Ha.
  apply in_app_or in Ha as [Ha | [<- | []]].
  - apply in_map_iff in Ha as [c [<- Hc]]. rewrite occursIn_single.
    apply fixPunctuation_no_character. exact Hc.
  - pose proof (fixPunctuation_no_ellipsis t) as H.
    rewrite search_false in H. apply H. left. reflexivity.
Qed.

(** ** Counting matches *)

Lemma matchAt_characters (cs : jsstring) (rest : list jsstring)
  (c : N) (t : jsstring) :
  matchAt (List.map (fun x => [x]) cs ++ rest) (c :: t) =
  if existsb (N.eqb c) cs then Some [c] else matchAt rest (c :: t).
Proof.
  induction cs as [|x cs IH]; [reflexivity|].
  unfold matchAt in *. simpl. rewrite andb_true_r, (N.eqb_sym c x).
  destruct (N.eqb_spec x c) as [->|_]; [reflexivity|]. simpl. exact IH.
Qed.

Lemma matchAt_characters_nil (cs : jsstring) (rest : list jsstring) :
  matchAt (List.map (fun x => [x]) cs ++ rest) [] = matchAt rest [].
Proof. induction cs as [|x cs IH]; [reflexivity | exact IH]. Qed.

(** A rule over single characters matches each of them once. *)
Lemma execAll_characters (cs : jsstring) (t : jsstring) :
  forall idx,
    length (execAll (List.map (fun x => [x]) cs) 0 idx t) = countOf cs t.
Proof.
  induction t as [|c t IH]; intros idx.
  - simpl. rewrite <- (app_nil_r (List.map _ cs)), matchAt_characters_nil.
    reflexivity.
  - cbn [execAll countOf].
    rewrite <- (app_nil_r (List.map _ cs)), matchAt_characters.
    rewrite app_nil_r.
    destruct (existsb (N.eqb c) cs); simpl; rewrite IH; reflexivity.
Qed.

Lemma single_alternatives (alts : list jsstring) :
  forallb (fun a => Nat.eqb (length a) 1) alts = true ->
  alts = List.map (fun x => [x]) (concat alts).
Proof.
  induction alts as [|a alts IH]; simpl; intros H; [reflexivity|].
  apply andb_true_iff in H as [Ha H]. apply Nat.eqb_eq in Ha.
  destruct a as [|x [|y a]]; try discriminate.
  simpl. f_equal. apply IH. exact H.
Qed.

Lemma coordinatesOfChars_length (r : RegExp) (t : jsstring) :
  length (coordinatesOfChars r t) = length (execAll (alternatives r) 0 0 t).
Proof. unfold coordinatesOfChars, matchAll. apply length_map. Qed.

(** The combined scan against the scan for the ellipsis alternative
    alone: they differ by the full-width characters outside the part
    still to skip. *)
Lemma execAll_combined (t : jsstring) :
  forall skip idx,
    length (execAll (alternatives CHECKER_PATTERN) skip idx t)
    + countOf fullWidthCharacters (firstn skip t)
    = length (execAll [ellipsisAlternative] skip idx t)
      + countOf fullWidthCharacters t.
Proof.
  rewrite CHECKER_PATTERN_alternatives_split.
  induction t as [|c t IH]; intros skip idx.
  - rewrite firstn_nil. destruct skip; [|reflexivity].
    cbn [execAll]. rewrite matchAt_characters_nil. reflexivity.
  - destruct skip as [|k].
    + cbn [execAll firstn countOf]. rewrite matchAt_characters.
      destruct (existsb (N.eqb c) fullWidthCharacters) eqn:Ec.
      * assert (Hp : matchAt [ellipsisAlternative] (c :: t) = None).
        { unfold matchAt, ellipsisAlternative. cbn [List.find startsWith].
          destruct (N.eqb_spec 8230 c) as [<-|_]; [|reflexivity].
          vm_compute in Ec. discriminate. }
        rewrite Hp. cbn [length]. specialize (IH 0 (S idx)).
        rewrite firstn_O in IH. simpl in IH |- *. lia.
      * destruct (matchAt [ellipsisAlternative] (c :: t)) as [a|] eqn:Ep.
        -- apply matchAt_Some in Ep as [[<-|[]] Hs].
           apply startsWith_true in Hs as [suf Hs].
           injection Hs as -> ->.
           specialize (IH 6 (S idx)).
           change (length ellipsisAlternative - 1) with 6.
           cbn [firstn app] in IH.
           change (countOf fullWidthCharacters [123; 49; 44; 32; 50; 125]%N)
             with 0 in IH.
           cbn [length app]. simpl in IH |- *. lia.
        -- specialize (IH 0 (S idx)). rewrite firstn_O in IH.
           simpl in IH |- *. lia.
    + cbn [execAll firstn countOf]. specialize (IH k (S idx)). lia.
Qed.

Lemma PUNCTUATION_MAP_split :
  PUNCTUATION_MAP =
  characterRules ++ [(re_g ellipsisAlternative, ofAscii "...")].
Proof. reflexivity. Qed.

Lemma characterRules_single (kv : RegExp * jsstring) :
  In kv characterRules ->
  alternatives (fst kv) =
  List.map (fun x => [x]) (concat (alternatives (fst kv))).
Proof.
  intros H. apply single_alternatives.
  assert (Hall : forallb (fun kv => forallb (fun a => Nat.eqb (length a) 1)
                                      (alternatives (fst kv)))
                         characterRules = true) by reflexivity.
  rewrite forallb_forall in Hall. apply Hall. exact H.
Qed.

(** No character belongs to two rules. *)
Lemma character_in_one_class (c : N) :
  list_sum (List.map (fun cs => if existsb (N.eqb c) cs then 1 else 0)
                     characterClasses)
  = if existsb (N.eqb c) fullWidthCharacters then 1 else 0.
Proof.
  let cl := eval vm_compute in characterClasses in
  change characterClasses with cl.
  unfold fullWidthCharacters. cbn [List.map list_sum existsb].
  repeat match goal with
         | |- context [N.eqb c ?k] =>
             destruct (N.eqb_spec c k) as [->|_]; [reflexivity|]
         end.
  reflexivity.
Qed.

Lemma list_sum_map_add {A : Type} (f g : A -> nat) (l : list A) :
  list_sum (List.map (fun x => f x + g x) l)
  = list_sum (List.map f l) + list_sum (List.map g l).
Proof. induction l as [|x l IH]; simpl; lia. Qed.

Lemma countOf_classes (t : jsstring) :
  list_sum (List.map (fun cs => countOf cs t) characterClasses)
  = countOf fullWidthCharacters t.
Proof.
  induction t as [|c t IH].
  - reflexivity.
  - cbn [countOf]. rewrite <- IH, <- character_in_one_class.
    apply list_sum_map_add.
Qed.

(** The matches of the rules taken one by one. *)
Lemma rules_match_count (t : jsstring) :
  list_sum (List.map (fun kv => length (coordinatesOfChars (fst kv) t))
                     PUNCTUATION_MAP)
  = countOf fullWidthCharacters t
    + length (execAll [ellipsisAlternative] 0 0 t).
Proof.
  rewrite PUNCTUATION_MAP_split, map_app, list_sum_app.
  cbn [List.map list_sum fst]. rewrite coordinatesOfChars_length.
  change (alternatives (re_g ellipsisAlternative))
    with [ellipsisAlternative].
  change (list_sum [length (execAll [ellipsisAlternative] 0 0 t)])
    with (length (execAll [ellipsisAlternative] 0 0 t) + 0).
  rewrite Nat.add_0_r. f_equal.
  rewrite <- countOf_classes. unfold characterClasses.
  rewrite map_map. f_equal. apply map_ext_in. intros kv Hkv.
  rewrite coordinatesOfChars_length, (characterRules_single kv Hkv).
  rewrite execAll_characters.
  rewrite <- (characterRules_single kv Hkv). reflexivity.
Qed.

(** ** Matches and the text *)

(** Every reported match is an alternative found at its index. *)
Lemma execAll_sound (alts : list jsstring) (t : jsstring) (m : MatchResult) :
  forall skip idx,
    In m (execAll alts skip idx t) ->
    idx <= index m /\ In (matched m) alts
    /\ startsWith (matched m) (skipn (index m - idx) t) = true.
Proof.
  induction t as [|c t IH]; intros skip idx H.
  - simpl in H. destruct skip; [|contradiction].
    destruct (matchAt alts []) as [a|] eqn:E; [|contradiction].
    destruct H as [<-|[]]. simpl. rewrite Nat.sub_diag. simpl.
    apply matchAt_Some in E as [Ha Hs]. auto.
  - assert (Hrec : forall k, In m (execAll alts k (S idx) t) ->
              idx <= index m /\ In (matched m) alts
              /\ startsWith (matched m) (skipn (index m - idx) (c :: t))
                 = true).
    { intros k Hk. destruct (IH _ _ Hk) as [Hi [Ha Hs]].
      split; [lia|]. split; [exact Ha|].
      replace (index m - idx) with (S (index m - S idx)) by lia.
      exact Hs. }
    destruct skip as [|k]; [|apply (Hrec k); exact H].
    simpl in H. destruct (matchAt alts (c :: t)) as [a|] eqn:E.
    + destruct H as [<-|H]; [|apply (Hrec _ H)].
      simpl. rewrite Nat.sub_diag. simpl.
      apply matchAt_Some in E as [Ha Hs]. auto.
    + apply (Hrec _ H).
Qed.

Lemma startsWith_nth_error (c : N) (a t : jsstring) (i : nat) :
  startsWith (c :: a) (skipn i t) = true -> nth_error t i = Some c.
Proof.
  intros [suf H]%startsWith_true.
  rewrite <- (firstn_skipn i t) at 1. rewrite H.
  assert (Hi : i <= length t).
  { destruct (Nat.le_gt_cases i (length t)) as [Hle|Hgt]; [exact Hle|].
    rewrite skipn_all2 in H by lia. discriminate. }
  rewrite nth_error_app2 by (rewrite length_firstn; lia).
  rewrite length_firstn.
  replace (i - Nat.min i (length t)) with 0 by lia. reflexivity.
Qed.

Lemma CHECKER_PATTERN_nonempty (a : jsstring) :
  In a (alternatives CHECKER_PATTERN) -> exists c rest, a = c :: rest.
Proof.
  intros H.
  assert (Hall : forallb (fun a => negb (Nat.eqb (length a) 0))
                         (alternatives CHECKER_PATTERN) = true)
    by (vm_compute; reflexivity).
  rewrite forallb_forall in Hall. specialize (Hall a H).
  destruct a as [|c rest]; [discriminate | eauto].
Qed.

(** ** Lines and columns *)

Lemma split_nonempty (sep : N) (t : jsstring) : split sep t <> [].
Proof.
  destruct t as [|c t]; simpl; [discriminate|].
  destruct (N.eqb c sep); [discriminate|].
  destruct (split sep t); discriminate.
Qed.

Lemma split_app_separator (sep : N) (a b : jsstring) :
  split sep (a ++ sep :: b) = split sep a ++ split sep b.
Proof.
  induction a as [|x a IH]; simpl.
  - rewrite N.eqb_refl. reflexivity.
  - destruct (N.eqb x sep); [rewrite IH; reflexivity|].
    rewrite IH. pose proof (split_nonempty sep a) as Hne.
    destruct (split sep a); [contradiction | reflexivity].
Qed.

Lemma split_no_separator (sep : N) (t : jsstring) :
  ~ In sep t -> split sep t = [t].
Proof.
  induction t as [|c t IH]; intros H; simpl; [reflexivity|].
  destruct (N.eqb_spec c sep) as [->|_]; [exfalso; apply H; left; reflexivity|].
  rewrite IH by (intros Hin; apply H; right; exact Hin). reflexivity.
Qed.

Lemma split_length (sep : N) (t : jsstring) :
  length (split sep t) = S (countOf [sep] t).
Proof.
  induction t as [|c t IH]; simpl; [reflexivity|].
  rewrite orb_false_r. destruct (N.eqb c sep); simpl; [rewrite IH; reflexivity|].
  pose proof (split_nonempty sep t) as Hne.
  destruct (split sep t); [contradiction | exact IH].
Qed.

(** The coordinate of a match whose first character [c] stands after
    [line] on its line: the line number is one more than the number of
    newlines before it, and the column is the length of [line] plus two,
    one more than the 1-based column of [c]. *)
Lemma coordinateOf_column (pre line rest a : jsstring) (c : N) :
  pre = [] \/ (exists pre', pre = pre' ++ [10%N]) ->
  ~ In 10%N (line ++ [c]) ->
  coordinateOf (pre ++ line ++ c :: rest)
               (mkMatch (length pre + length line) a)
  = (S (countOf [10%N] pre), length line + 2, Some c).
Proof.
  intros Hpre Hline. unfold coordinateOf. cbn [index].
  assert (Hfirst : firstn (length pre + length line + 1)
                          (pre ++ line ++ c :: rest)
                   = pre ++ line ++ [c]).
  { change (c :: rest) with ([c] ++ rest). rewrite !app_assoc.
    rewrite firstn_app, firstn_all2 by (rewrite !length_app; simpl; lia).
    rewrite !length_app. simpl.
    replace (_ - _) with 0 by lia. rewrite firstn_O, app_nil_r. reflexivity. }
  rewrite Hfirst.
  assert (Hnth : nth_error (pre ++ line ++ c :: rest)
                           (length pre + length line) = Some c).
  { rewrite app_assoc, nth_error_app2 by (rewrite length_app; lia).
    rewrite length_app, Nat.sub_diag. reflexivity. }
  rewrite Hnth, split_length.
  assert (Hcount : countOf [10%N] (pre ++ line ++ [c]) = countOf [10%N] pre).
  { clear -Hline. induction pre as [|x pre IH]; simpl; [|rewrite IH; reflexivity].
    induction (line ++ [c]) as [|y l IHl]; [reflexivity|].
    simpl. rewrite orb_false_r.
    destruct (N.eqb_spec y 10) as [->|_]; [exfalso; apply Hline; left; reflexivity|].
    apply IHl. intros Hin. apply Hline. right. exact Hin. }
  rewrite Hcount. f_equal. f_equal.
  assert (Hlast : List.last (split 10 (pre ++ line ++ [c])) [] = line ++ [c]).
  { destruct Hpre as [->|[pre' ->]].
    - simpl. rewrite split_no_separator by exact Hline. reflexivity.
    - rewrite <- app_assoc. simpl. rewrite split_app_separator.
      rewrite (split_no_separator _ _ Hline).
      apply last_last. }
  rewrite Hlast, length_app. simpl. lia.
Qed.

(** ** Runs over files *)

Section Runs.

Variable join : jsstring -> jsstring -> jsstring.
Variable __dirname : jsstring.

Lemma addConsole_nil (w : World) : addConsole w [] = w.
Proof. destruct w. unfold addConsole. simpl. rewrite app_nil_r. reflexivity. Qed.

Lemma addConsole_app (w : World) (ms ms' : list Message) :
  addConsole (addConsole w ms) ms' = addConsole w (ms ++ ms').
Proof. unfold addConsole. simpl. rewrite app_assoc. reflexivity. Qed.

Lemma console_log_run (m : Message) (w : World) :
  console_log m w = Returned tt (addConsole w [m]).
Proof. reflexivity. Qed.

Lemma forOf_coordinates (path : jsstring) (cs : list Coordinate) :
  forall w,
    forOf cs
      (fun (_ : unit) c =>
         let '(lineNumber, colNumber, char) := c in
         console_log (MsgCoordinate path lineNumber colNumber char))
      tt w
    = Returned tt (addConsole w (List.map (coordinateMessage path) cs)).
Proof.
  induction cs as [|[[l c] ch] cs IH]; intros w.
  - simpl. rewrite addConsole_nil. reflexivity.
  - cbn [forOf]. unfold mbind, Run_bind. rewrite console_log_run.
    rewrite IH, addConsole_app. reflexivity.
Qed.

(** One file in detection mode. *)
Lemma iterateFile_detect (processer : jsstring -> jsstring)
  (absolute : bool) (st : Counters) (path : jsstring) (w : World) :
  is_Some (files w !! absPathOf join __dirname absolute path) ->
  iterateFile join __dirname processer false absolute st path w
  = Returned (tallyFile join __dirname absolute (files w) st path)
             (addConsole w (diagnostics join __dirname absolute (files w) path)).
Proof.
  intros [content Hc].
  unfold iterateFile, tallyFile, diagnostics, mbind, Run_bind, readFileSync.
  fold (absPathOf join __dirname absolute path). rewrite Hc.
  destruct (test CHECKER_PATTERN content); simpl.
  - rewrite forOf_coordinates. unfold addConsole, mret, Run_ret. simpl.
    rewrite <- app_assoc. reflexivity.
  - reflexivity.
Qed.

Lemma iterateFile_unreadable (processer : jsstring -> jsstring)
  (fix_ absolute : bool) (st : Counters) (path : jsstring) (w : World) :
  files w !! absPathOf join __dirname absolute path = None ->
  iterateFile join __dirname processer fix_ absolute st path w = Thrown w.
Proof.
  intros Hc. unfold iterateFile, mbind, Run_bind, readFileSync.
  fold (absPathOf join __dirname absolute path). rewrite Hc. reflexivity.
Qed.

(** The loop in detection mode: the files stay, the console grows by the
    diagnostics of every file, in order. *)
Lemma scan_detect (processer : jsstring -> jsstring) (absolute : bool)
  (paths : list jsstring) :
  forall st w,
    readable join __dirname absolute (files w) paths ->
    forOf paths (iterateFile join __dirname processer false absolute) st w
    = Returned (tally join __dirname absolute (files w) paths st)
               (addConsole w
                  (flat_map (diagnostics join __dirname absolute (files w)) paths)).
Proof.
  induction paths as [|p paths IH]; intros st w Hr.
  - simpl. rewrite addConsole_nil. reflexivity.
  - cbn [forOf]. unfold mbind, Run_bind.
    rewrite iterateFile_detect by (apply Hr; left; reflexivity).
    rewrite IH by (intros p' Hp'; apply Hr; right; exact Hp').
    simpl. rewrite addConsole_app. reflexivity.
Qed.

(** In detection mode nothing is written, however the loop ends. *)
Lemma scan_detect_frame (processer : jsstring -> jsstring) (absolute : bool)
  (paths : list jsstring) :
  forall st w,
    let o := forOf paths (iterateFile join __dirname processer false absolute)
                   st w in
    files (worldOf o) = files w /\ writes (worldOf o) = writes w.
Proof.
  induction paths as [|p paths IH]; intros st w; [split; reflexivity|].
  cbn [forOf]. unfold mbind, Run_bind.
  destruct (files w !! absPathOf join __dirname absolute p) as [content|] eqn:Hc.
  - rewrite iterateFile_detect by (rewrite Hc; eauto).
    apply (IH _ (addConsole w _)).
  - rewrite iterateFile_unreadable by exact Hc. split; reflexivity.
Qed.

Lemma tally_errFlag (absolute : bool) (fs : gmap (list N) (list N))
  (paths : list jsstring) :
  forall st,
    errFlag (tally join __dirname absolute fs paths st)
    = errFlag st || existsb (hasMatch join __dirname absolute fs) paths.
Proof.
  unfold tally.
  induction paths as [|p paths IH]; intros st; simpl.
  - rewrite orb_false_r. reflexivity.
  - rewrite IH. unfold tallyFile, hasMatch.
    destruct (fs !! absPathOf join __dirname absolute p) as [content|]; [|reflexivity].
    destruct (test CHECKER_PATTERN content); simpl; [|reflexivity].
    rewrite orb_true_r. reflexivity.
Qed.

Lemma coordinatesOfChars_match (content : jsstring) :
  test CHECKER_PATTERN content = true ->
  0 < length (coordinatesOfChars CHECKER_PATTERN content).
Proof.
  intros H. rewrite coordinatesOfChars_length.
  apply execAll_matches in H.
  destruct (execAll _ 0 0 content); [congruence | simpl; lia].
Qed.

Lemma tally_consistent (absolute : bool) (fs : gmap (list N) (list N))
  (paths : list jsstring) :
  forall st, countersConsistent st ->
             countersConsistent (tally join __dirname absolute fs paths st).
Proof.
  unfold tally.
  induction paths as [|p paths IH]; intros st Hst; [exact Hst|].
  simpl. apply IH. unfold tallyFile.
  destruct (fs !! absPathOf join __dirname absolute p) as [content|]; [|exact Hst].
  destruct (test CHECKER_PATTERN content) eqn:Ht; [|exact Hst].
  apply coordinatesOfChars_match in Ht. destruct Hst as [Hle _].
  unfold countersConsistent. simpl. split; [lia|]. split; [lia | reflexivity].
Qed.

(** The whole of a detection run over readable files. *)
Lemma iterateFiles_detect (processer : jsstring -> jsstring)
  (absolute : bool) (paths : list jsstring) (w : World) :
  readable join __dirname absolute (files w) paths ->
  let st := tally join __dirname absolute (files w) paths (mkCounters 0 false 0 0) in
  let w1 := addConsole w
              (MsgLinting false ::
               flat_map (diagnostics join __dirname absolute (files w)) paths ++
               [MsgScanning (length paths); MsgFinding DOCS_PATTERN]) in
  iterateFiles join __dirname paths processer false absolute w
  = if errFlag st then
      Exited 1 (addConsole w1
                  [MsgSummaryErrors (errCount st) (errFileCount st)])
    else Returned tt (addConsole w1 [MsgNoError]).
Proof.
  intros Hr st w1. unfold iterateFiles, scanFiles, mbind, Run_bind.
  rewrite console_log_run.
  rewrite (scan_detect processer absolute paths _ (addConsole w _))
    by exact Hr.
  rewrite !console_log_run, !addConsole_app.
  change (files (addConsole w [MsgLinting false])) with (files w).
  fold st. cbn [negb].
  destruct (errFlag st); cbv beta iota;
    rewrite console_log_run, addConsole_app;
    unfold w1, exit; rewrite addConsole_app; simpl;
    rewrite <- ?app_assoc; reflexivity.
Qed.

(** One file in fix mode: written once with the processed content when
    the combined pattern finds a match, passed over otherwise. *)
Lemma iterateFile_fix (processer : jsstring -> jsstring)
  (absolute : bool) (st : Counters) (path content : jsstring) (w : World) :
  files w !! absPathOf join __dirname absolute path = Some content ->
  iterateFile join __dirname processer true absolute st path w
  = if test CHECKER_PATTERN content then
      Returned (mkCounters (S (fixedFileCount st)) (errFlag st)
                           (errFileCount st) (errCount st))
               (mkWorld (<[absPathOf join __dirname absolute path := processer content]>
                           (files w))
                        (console w ++ [MsgFixed path])
                        (writes w ++ [(absPathOf join __dirname absolute path,
                                       processer content)]))
    else Returned st (addConsole w [MsgClean path]).
Proof.
  intros Hc. unfold iterateFile, mbind, Run_bind, readFileSync.
  fold (absPathOf join __dirname absolute path). rewrite Hc.
  destruct (test CHECKER_PATTERN content); reflexivity.
Qed.

(** Fix mode gets through every readable list. *)
Lemma scan_fix_returns (processer : jsstring -> jsstring) (absolute : bool)
  (paths : list jsstring) :
  forall st w,
    readable join __dirname absolute (files w) paths ->
    exists st' w',
      forOf paths (iterateFile join __dirname processer true absolute) st w
      = Returned st' w'.
Proof.
  induction paths as [|p paths IH]; intros st w Hr.
  - exists st, w. reflexivity.
  - cbn [forOf]. unfold mbind, Run_bind.
    destruct (Hr p (or_introl eq_refl)) as [content Hc].
    rewrite (iterateFile_fix _ _ _ _ _ _ Hc).
    destruct (test CHECKER_PATTERN content); apply IH;
      intros p' Hp'; simpl;
      [|apply Hr; right; exact Hp'].
    destruct (decide (absPathOf join __dirname absolute p = absPathOf join __dirname absolute p'))
      as [->|Hne].
    + rewrite lookup_insert_eq. eauto.
    + rewrite lookup_insert_ne by exact Hne. apply Hr. right. exact Hp'.
Qed.

Lemma scan_fix_outcome (absolute : bool) (paths : list jsstring) :
  forall st w st' w',
    forOf paths (iterateFile join __dirname fixPunctuation true absolute)
          st w = Returned st' w' ->
    exists new, fixOutcome join __dirname absolute paths w w' new.
Proof.
  induction paths as [|p paths IH]; intros st w st' w' H.
  - injection H as _ <-. exists []. unfold fixOutcome. simpl.
    rewrite app_nil_r. repeat split; try constructor; try tauto.
  - cbn [forOf] in H. unfold mbind, Run_bind in H.
    destruct (files w !! absPathOf join __dirname absolute p) as [content|] eqn:Hc;
      [|rewrite iterateFile_unreadable in H by exact Hc; discriminate].
    rewrite (iterateFile_fix _ _ _ _ _ _ Hc) in H.
    set (ap := absPathOf join __dirname absolute p) in *.
    destruct (test CHECKER_PATTERN content) eqn:Ht.
    + (* the file has a match and is rewritten *)
      apply IH in H as [new1 (Hw & Hnd & Hin & Hfix & Hkeep)].
      simpl in Hw, Hin, Hfix, Hkeep.
      assert (Hap : forall c, <[ap := fixPunctuation content]> (files w)
                              !! ap = Some c ->
                              test CHECKER_PATTERN c = true -> False).
      { intros c Hl Htc. rewrite lookup_insert_eq in Hl.
        injection Hl as <-. rewrite fixPunctuation_no_match in Htc.
        discriminate. }
      exists ((ap, fixPunctuation content) :: new1).
      unfold fixOutcome. simpl. fold ap.
      split; [|split; [|split; [|split]]].
      * rewrite Hw, <- app_assoc. reflexivity.
      * constructor; [|exact Hnd]. intros Hmem.
        apply list_elem_of_In in Hmem.
        apply in_map_iff in Hmem as [[q d] [Hq Hqd]]. simpl in Hq. subst q.
        apply Hin in Hqd as [_ [c [Hl [Htc _]]]]. exact (Hap c Hl Htc).
      * intros q d. split.
        -- intros [Heq | Hqd].
           ++ injection Heq as <- <-. split; [left; reflexivity | eauto].
           ++ apply Hin in Hqd as [Hq [c [Hl [Htc Hd]]]].
              split; [right; exact Hq|].
              destruct (decide (ap = q)) as [<-|Hne];
                [exfalso; exact (Hap c Hl Htc)|].
              rewrite lookup_insert_ne in Hl by exact Hne. eauto.
        -- intros [Hq [c [Hl [Htc Hd]]]].
           destruct (decide (ap = q)) as [<-|Hne].
           ++ left. rewrite Hc in Hl. injection Hl as <-. subst d.
              reflexivity.
           ++ right. apply Hin.
              split; [destruct Hq; [contradiction|assumption]|].
              exists c. rewrite lookup_insert_ne by exact Hne. auto.
      * intros q c Hq Hl Htc.
        destruct (decide (ap = q)) as [<-|Hne].
        -- rewrite Hc in Hl. injection Hl as <-.
           rewrite Hkeep; [apply lookup_insert_eq|].
           right. exists (fixPunctuation content).
           rewrite lookup_insert_eq. split; [reflexivity|].
           apply fixPunctuation_no_match.
        -- apply Hfix; [destruct Hq; [contradiction|assumption] | | exact Htc].
           rewrite lookup_insert_ne by exact Hne. exact Hl.
      * intros q Hq.
        assert (Hne : ap <> q).
        { intros <-. destruct Hq as [Hq | [c [Hl Htc]]]; [apply Hq; auto|].
          rewrite Hc in Hl. injection Hl as <-. congruence. }
        rewrite Hkeep; [apply lookup_insert_ne; exact Hne|].
        destruct Hq as [Hq | [c [Hl Htc]]]; [left; tauto|].
        right. exists c. rewrite lookup_insert_ne by exact Hne. auto.
    + (* the file is clean and passed over *)
      apply IH in H as [new1 (Hw & Hnd & Hin & Hfix & Hkeep)].
      simpl in Hw, Hin, Hfix, Hkeep.
      exists new1. unfold fixOutcome. simpl. fold ap.
      split; [|split; [|split; [|split]]].
      * exact Hw.
      * exact Hnd.
      * intros q d. split.
        -- intros Hqd. apply Hin in Hqd as [Hq Hc'].
           split; [right; exact Hq | exact Hc'].
        -- intros [Hq [c [Hl [Htc Hd]]]]. apply Hin. split; [|eauto].
           destruct Hq as [<-|Hq]; [|exact Hq].
           rewrite Hc in Hl. injection Hl as <-. congruence.
      * intros q c Hq Hl Htc. apply Hfix; [|exact Hl|exact Htc].
        destruct Hq as [<-|Hq]; [|exact Hq].
        rewrite Hc in Hl. injection Hl as <-. congruence.
      * intros q Hq. apply Hkeep.
        destruct Hq as [Hq | Hq]; [left; tauto | right; exact Hq].
Qed.

Lemma iterateFiles_fix_returns (processer : jsstring -> jsstring)
  (absolute : bool) (paths : list jsstring) (w : World) :
  readable join __dirname absolute (files w) paths ->
  exists st' w1 summary,
    scanFiles join __dirname paths processer true absolute
              (addConsole w [MsgLinting true]) = Returned st' w1
    /\ iterateFiles join __dirname paths processer true absolute w
       = Returned tt
           (addConsole w1 [MsgScanning (length paths);
                           MsgFinding DOCS_PATTERN; summary]).
Proof.
  intros Hr.
  destruct (scan_fix_returns processer absolute paths
              (mkCounters 0 false 0 0) (addConsole w [MsgLinting true]) Hr)
    as [st' [w1 Hscan]].
  exists st', w1,
    (if Nat.eqb (fixedFileCount st') 0 then MsgNoError
     else MsgSummaryFixed (fixedFileCount st')).
  split; [exact Hscan|].
  unfold iterateFiles, mbind, Run_bind. rewrite console_log_run.
  unfold scanFiles in Hscan |- *. rewrite Hscan.
  rewrite !console_log_run, !addConsole_app. cbn [negb].
  destruct (Nat.eqb (fixedFileCount st') 0);
    rewrite console_log_run, addConsole_app; reflexivity.
Qed.

Lemma iterateFiles_fix (absolute : bool) (paths : list jsstring) (w : World) :
  readable join __dirname absolute (files w) paths ->
  exists w' new,
    iterateFiles join __dirname paths fixPunctuation true absolute w
    = Returned tt w'
    /\ fixOutcome join __dirname absolute paths w w' new.
Proof.
  intros Hr.
  destruct (iterateFiles_fix_returns fixPunctuation absolute paths w Hr)
    as [st' [w1 [summary [Hscan Hrun]]]].
  apply scan_fix_outcome in Hscan as [new Hout].
  eexists _, new. split; [exact Hrun|]. exact Hout.
Qed.

End Runs.

(** ** The command line *)

Lemma isFlag_true (flag : jsstring) :
  isFlag flag = true <-> flag = ofAscii "--" ++ skipn 2 flag.
Proof.
  unfold isFlag. rewrite startsWith_true. split.
  - intros [suf ->]. reflexivity.
  - intros H. exists (skipn 2 flag). exact H.
Qed.

Lemma isFlag_key (flag key : jsstring) :
  isFlag flag = true ->
  (skipn 2 flag = key <-> flag = ofAscii "--" ++ key).
Proof.
  intros H. apply isFlag_true in H. split.
  - intros <-. exact H.
  - intros ->. reflexivity.
Qed.

Lemma isFlag_app (key : jsstring) : isFlag (ofAscii "--" ++ key) = true.
Proof. apply isFlag_true. reflexivity. Qed.

(** The loop as written takes the arguments out in order. *)
Lemma spliceLoop_parseArgs (fuel : nat) :
  forall cpy options,
    length cpy <= fuel + 2 ->
    exists cpy',
      spliceLoop fuel cpy options
      = Some (cpy', parseArgs (skipn 2 cpy) options)
      /\ (parseArgs (skipn 2 cpy) options <> TypeError ->
          cpy' = firstn 2 cpy).
Proof.
  induction fuel as [|fuel IH]; intros cpy options Hlen.
  - destruct cpy as [|a [|b [|c cpy]]]; simpl in Hlen; try lia;
      (eexists; split; [reflexivity | reflexivity]).
  - destruct cpy as [|a [|b [|flag rest]]];
      try (eexists; split; [reflexivity | reflexivity]).
    cbn [spliceLoop length Nat.ltb Nat.leb nth_error firstn skipn app
         parseArgs].
    destruct (parseFlag options flag) as [options'|].
    + destruct (IH (a :: b :: rest) options') as [cpy' [Hrun Hcpy]];
        [simpl in Hlen |- *; lia|].
      exists cpy'. split; [exact Hrun | exact Hcpy].
    + eexists. split; [reflexivity|]. intros H. contradiction.
Qed.

Lemma setTrue_lookup (key k : jsstring)
  (options : gmap (list N) OptionValue) :
  setTrue key options !! k
  = if bool_decide (key = k /\ key <> ofAscii "__proto__")
    then Some OptTrue else options !! k.
Proof.
  unfold setTrue. case_bool_decide as Hp.
  - rewrite bool_decide_eq_false_2 by tauto. reflexivity.
  - destruct (decide (key = k)) as [->|Hne].
    + rewrite lookup_insert_eq, bool_decide_eq_true_2 by tauto. reflexivity.
    + rewrite lookup_insert_ne, bool_decide_eq_false_2 by tauto. reflexivity.
Qed.

(** Without a [--paths] flag the options are read off the arguments. *)
Lemma parseArgs_plain (args : list jsstring) :
  forall options,
    ~ In (ofAscii "--paths") args ->
    pathsPushable options ->
    exists options',
      parseArgs args options = Normal options'
      /\ pathsPushable options'
      /\ (options' !! ofAscii "paths"
          = match List.filter (fun a => negb (isFlag a)) args with
            | [] => options !! ofAscii "paths"
            | _ :: _ =>
                Some (OptPaths
                        (pathsOf options ++
                         List.filter (fun a => negb (isFlag a)) args))
            end)
      /\ (forall k,
            k <> ofAscii "paths" ->
            options' !! k
            = if bool_decide ((ofAscii "--" ++ k) ∈ args
                              /\ k <> ofAscii "__proto__")
              then Some OptTrue else options !! k).
Proof.
  induction args as [|flag args IH]; intros options Hno Hpush.
  - exists options. split; [reflexivity|]. split; [exact Hpush|].
    split; [reflexivity|]. intros k Hk. rewrite bool_decide_eq_false_2; [reflexivity|].
    intros [H _]. inversion H.
  - assert (Hno' : ~ In (ofAscii "--paths") args)
      by (intros H; apply Hno; right; exact H).
    assert (Hflag : flag <> ofAscii "--paths")
      by (intros H; apply Hno; left; exact H).
    cbn [parseArgs]. unfold parseFlag.
    destruct (isFlag flag) eqn:Ef.
    + (* a flag other than [--paths] *)
      assert (Hkey : skipn 2 flag <> ofAscii "paths").
      { intros H. apply (isFlag_key _ _ Ef) in H. exact (Hflag H). }
      assert (Hpush' : pathsPushable (setTrue (skipn 2 flag) options)).
      { unfold pathsPushable. rewrite setTrue_lookup.
        rewrite bool_decide_eq_false_2 by tauto. exact Hpush. }
      destruct (IH _ Hno' Hpush') as [options' (Hrun & Hp & Hpaths & Hkeys)].
      exists options'. split; [exact Hrun|]. split; [exact Hp|].
      split.
      * cbn [List.filter]. rewrite Ef. cbn [negb]. rewrite Hpaths.
        unfold pathsOf. rewrite !setTrue_lookup.
        rewrite bool_decide_eq_false_2 by tauto. reflexivity.
      * intros k Hk. rewrite (Hkeys k Hk), setTrue_lookup.
        assert (Hiff : (ofAscii "--" ++ k) ∈ flag :: args
                       <-> skipn 2 flag = k \/ (ofAscii "--" ++ k) ∈ args).
        { rewrite elem_of_cons, (isFlag_key flag k Ef).
          split; (intros [H|H]; [left; symmetry; exact H | right; exact H]). }
        repeat case_bool_decide; try reflexivity; exfalso;
          try rewrite Hiff in *; intuition congruence.
    + (* a path *)
      assert (Hkeep : forall (v : OptionValue) k,
                k <> ofAscii "paths" ->
                <[ofAscii "paths" := v]> options !! k = options !! k).
      { intros v k Hk. apply lookup_insert_ne. congruence. }
      assert (Hin : forall k,
                (ofAscii "--" ++ k) ∈ flag :: args
                <-> (ofAscii "--" ++ k) ∈ args).
      { intros k. rewrite elem_of_cons. split; [|tauto].
        intros [H|H]; [|exact H].
        rewrite <- H, isFlag_app in Ef. discriminate. }
      unfold pathsPushable in Hpush.
      destruct (options !! ofAscii "paths") as [[|paths]|] eqn:Hp;
        [contradiction| |].
      * destruct (IH (<[ofAscii "paths" := OptPaths (paths ++ [flag])]>
                        options) Hno')
          as [options' (Hrun & Hp' & Hpaths & Hkeys)].
        { unfold pathsPushable. rewrite lookup_insert_eq. discriminate. }
        exists options'. split; [exact Hrun|]. split; [exact Hp'|].
        split.
        -- cbn [List.filter]. rewrite Ef. cbn [negb]. rewrite Hpaths.
           unfold pathsOf. rewrite lookup_insert_eq, Hp.
           destruct (List.filter _ args); [|rewrite <- app_assoc];
             reflexivity.
        -- intros k Hk. rewrite (Hkeys k Hk), (Hkeep _ k Hk).
           pose proof (Hin k).
           repeat case_bool_decide; try reflexivity; exfalso; tauto.
      * destruct (IH (<[ofAscii "paths" := OptPaths [flag]]> options) Hno')
          as [options' (Hrun & Hp' & Hpaths & Hkeys)].
        { unfold pathsPushable. rewrite lookup_insert_eq. discriminate. }
        exists options'. split; [exact Hrun|]. split; [exact Hp'|].
        split.
        -- cbn [List.filter]. rewrite Ef. cbn [negb]. rewrite Hpaths.
           unfold pathsOf. rewrite lookup_insert_eq, Hp.
           destruct (List.filter _ args); reflexivity.
        -- intros k Hk. rewrite (Hkeys k Hk), (Hkeep _ k Hk).
           pose proof (Hin k).
           repeat case_bool_decide; try reflexivity; exfalso; tauto.
Qed.

(** Once a [--paths] flag has made [options.paths] true, the next path
    is a [TypeError]. *)
Lemma parseArgs_poisoned (args : list jsstring) :
  forall options,
    options !! ofAscii "paths" = Some OptTrue ->
    (parseArgs args options = TypeError
     <-> exists p, In p args /\ isFlag p = false).
Proof.
  induction args as [|flag args IH]; intros options Hp.
  - simpl. split; [discriminate | intros [p [[] _]]].
  - cbn [parseArgs]. unfold parseFlag. destruct (isFlag flag) eqn:Ef.
    + rewrite IH.
      * split; intros [p [Hin Hf]]; exists p; (split; [|exact Hf]).
        -- right. exact Hin.
        -- destruct Hin as [<-|Hin]; [congruence | exact Hin].
      * rewrite setTrue_lookup. case_bool_decide; [reflexivity | exact Hp].
    + rewrite Hp. split; [|reflexivity]. intros _. exists flag.
      split; [left; reflexivity | exact Ef].
Qed.

Lemma parseArgs_TypeError (args : list jsstring) :
  forall options,
    pathsPushable options ->
    (parseArgs args options = TypeError
     <-> exists pre rest p,
           args = pre ++ ofAscii "--paths" :: rest
           /\ In p rest /\ isFlag p = false).
Proof.
  induction args as [|flag args IH]; intros options Hpush.
  - simpl. split; [discriminate|].
    intros [pre [rest [p [H _]]]]. destruct pre; discriminate.
  - assert (Hshift : forall options',
              pathsPushable options' ->
              flag <> ofAscii "--paths" ->
              (parseArgs args options' = TypeError
               <-> exists pre rest p,
                     flag :: args = pre ++ ofAscii "--paths" :: rest
                     /\ In p rest /\ isFlag p = false)).
    { intros options' Hp' Hne. rewrite (IH _ Hp'). split.
      - intros [pre [rest [p [-> H]]]]. exists (flag :: pre), rest, p.
        split; [reflexivity | exact H].
      - intros [pre [rest [p [Heq H]]]].
        destruct pre as [|x pre]; simpl in Heq; injection Heq as Hx Heq;
          [congruence|].
        exists pre, rest, p. split; [exact Heq | exact H]. }
    cbn [parseArgs]. unfold parseFlag. destruct (isFlag flag) eqn:Ef.
    + destruct (decide (flag = ofAscii "--paths")) as [->|Hne].
      * rewrite parseArgs_poisoned
          by (rewrite setTrue_lookup; case_bool_decide as Hk;
              [reflexivity | exfalso; apply Hk; split;
                             [reflexivity | discriminate]]).
        split.
        -- intros [p H]. exists [], args, p. split; [reflexivity | exact H].
        -- intros [pre [rest [p [Heq [Hin Hf]]]]]. exists p.
           split; [|exact Hf].
           destruct pre as [|x pre]; simpl in Heq.
           ++ injection Heq as Heq. rewrite Heq. exact Hin.
           ++ injection Heq as Hx Heq. rewrite Heq.
              apply in_or_app. right. right. exact Hin.
      * apply Hshift; [|exact Hne].
        unfold pathsPushable. rewrite setTrue_lookup.
        case_bool_decide as Hk; [|exact Hpush].
        exfalso. destruct Hk as [Hk _].
        apply (isFlag_key _ _ Ef) in Hk. exact (Hne Hk).
    + assert (Hne : flag <> ofAscii "--paths")
        by (intros ->; discriminate).
      unfold pathsPushable in Hpush.
      destruct (options !! ofAscii "paths") as [[|paths]|] eqn:Hp;
        [contradiction| |];
        (apply Hshift; [|exact Hne]);
        unfold pathsPushable; rewrite lookup_insert_eq; discriminate.
Qed.

(** ** Joining and splitting *)

Lemma split_join (sep : N) (parts : list jsstring) :
  parts <> [] ->
  split sep (Array_join [sep] parts) = concat (List.map (split sep) parts).
Proof.
  induction parts as [|x parts IH]; intros Hne; [contradiction|].
  destruct parts as [|y parts].
  - simpl. rewrite app_nil_r. reflexivity.
  - change (Array_join [sep] (x :: y :: parts))
      with (x ++ sep :: Array_join [sep] (y :: parts)).
    rewrite split_app_separator, IH by discriminate. reflexivity.
Qed.

Lemma search_app (alts alts' : list jsstring) (t : jsstring) :
  search (alts ++ alts') t = search alts t || search alts' t.
Proof.
  apply eq_true_iff_eq.
  rewrite orb_true_iff, !search_true. split.
  - intros [a [Ha Ho]]. apply in_app_or in Ha as [Ha|Ha]; eauto.
  - intros [[a [Ha Ho]] | [a [Ha Ho]]]; exists a; (split; [|exact Ho]);
      apply in_or_app; auto.
Qed.

Lemma search_concat (altss : list (list jsstring)) (t : jsstring) :
  search (concat altss) t = existsb (fun alts => search alts t) altss.
Proof.
  induction altss as [|alts altss IH]; simpl.
  - induction t as [|c t IHt]; [reflexivity | exact IHt].
  - rewrite search_app, IH. reflexivity.
Qed.

Lemma existsb_map_compose {A B : Type} (f : B -> bool) (g : A -> B)
  (l : list A) :
  existsb f (List.map g l) = existsb (fun x => f (g x)) l.
Proof. induction l as [|x l IH]; simpl; [|rewrite IH]; reflexivity. Qed.

(** ** The matches of a scan, exactly *)

(** A reported match is the match of the pattern at its index. *)
Lemma execAll_exact (alts : list jsstring) (t : jsstring) (m : MatchResult) :
  forall skip idx,
    In m (execAll alts skip idx t) ->
    idx + skip <= index m
    /\ matchAt alts (skipn (index m - idx) t) = Some (matched m).
Proof.
  induction t as [|c t IH]; intros skip idx H.
  - simpl in H. destruct skip; [|contradiction].
    destruct (matchAt alts []) as [a|] eqn:E; [|contradiction].
    destruct H as [<-|[]]. simpl. rewrite Nat.sub_diag. simpl.
    split; [lia | exact E].
  - assert (Hrec : forall k, In m (execAll alts k (S idx) t) ->
              idx + S k <= index m
              /\ matchAt alts (skipn (index m - idx) (c :: t))
                 = Some (matched m)).
    { intros k Hk. destruct (IH _ _ Hk) as [Hi Hm]. split; [lia|].
      replace (index m - idx) with (S (index m - S idx)) by lia.
      exact Hm. }
    destruct skip as [|k]; [|apply (Hrec k); exact H].
    simpl in H. destruct (matchAt alts (c :: t)) as [a|] eqn:E.
    + destruct H as [<-|H].
      * simpl. rewrite Nat.sub_diag. simpl. split; [lia | exact E].
      * destruct (Hrec _ H) as [Hi Hm]. split; [lia | exact Hm].
    + destruct (Hrec _ H) as [Hi Hm]. split; [lia | exact Hm].
Qed.

(** A position where the pattern matches is the index of a reported
    match, or lies before the point where the scan resumed after one. *)
Lemma execAll_covers (alts : list jsstring) (t : jsstring) :
  forall skip idx j,
    skip <= j -> j <= length t ->
    is_Some (matchAt alts (skipn j t)) ->
    exists m,
      In m (execAll alts skip idx t)
      /\ index m <= idx + j /\ idx + j < resumeIndex m.
Proof.
  unfold resumeIndex.
  induction t as [|c t IH]; intros skip idx j Hskip Hj [a Ha].
  - simpl in Hj. assert (j = 0) by lia. subst j.
    assert (skip = 0) by lia. subst skip. simpl in Ha |- *.
    rewrite Ha. exists (mkMatch idx a). simpl. split; [left; reflexivity|].
    lia.
  - assert (Hrec : forall k j',
              k <= j' -> j = S j' ->
              exists m,
                In m (execAll alts k (S idx) t)
                /\ index m <= idx + j
                /\ idx + j < index m + Nat.max 1 (length (matched m))).
    { intros k j' Hk ->. simpl in Hj, Ha.
      destruct (IH k (S idx) j' Hk ltac:(lia) ltac:(eauto))
        as [m (Hin & Hlo & Hhi)].
      exists m. split; [exact Hin|]. lia. }
    destruct skip as [|k].
    + cbn [execAll]. destruct (matchAt alts (c :: t)) as [b|] eqn:E.
      * destruct (Nat.lt_ge_cases j (Nat.max 1 (length b))) as [Hin|Hout].
        -- exists (mkMatch idx b). simpl. split; [left; reflexivity|]. lia.
        -- destruct j as [|j']; [lia|].
           destruct (Hrec (length b - 1) j' ltac:(lia) eq_refl)
             as [m (Hm & Hlo & Hhi)].
           exists m. split; [right; exact Hm|]. lia.
      * destruct j as [|j']; [simpl in Ha; congruence|].
        destruct (Hrec 0 j' ltac:(lia) eq_refl) as [m (Hm & Hlo & Hhi)].
        exists m. split; [exact Hm|]. lia.
    + destruct j as [|j']; [lia|]. cbn [execAll].
      apply (Hrec k j'); [lia | reflexivity].
Qed.

Lemma ascending_weaken (ms : list MatchResult) (lo lo' : nat) :
  lo' <= lo -> ascending lo ms -> ascending lo' ms.
Proof. destruct ms; simpl; [tauto|]. intros Hle [H1 H2]. split; [lia|exact H2]. Qed.

Lemma execAll_ascending (alts : list jsstring) (t : jsstring) :
  forall skip idx, ascending (idx + skip) (execAll alts skip idx t).
Proof.
  induction t as [|c t IH]; intros skip idx.
  - simpl. destruct skip; [|exact I].
    destruct (matchAt alts []); simpl; [split; [lia | exact I] | exact I].
  - destruct skip as [|k]; cbn [execAll].
    + destruct (matchAt alts (c :: t)) as [a|].
      * simpl. split; [lia|].
        apply (ascending_weaken _ (S idx + (length a - 1)));
          [unfold resumeIndex; simpl; lia | apply IH].
      * apply (ascending_weaken _ (S idx + 0)); [lia | apply IH].
    + apply (ascending_weaken _ (S idx + k)); [lia | apply IH].
Qed.

Lemma ascending_nth (ms : list MatchResult) :
  forall lo j m,
    ascending lo ms -> nth_error ms j = Some m -> lo <= index m.
Proof.
  induction ms as [|m0 ms IH]; intros lo j m Ha Hn.
  - destruct j; discriminate.
  - destruct Ha as [Hlo Ha]. destruct j as [|j]; simpl in Hn.
    + injection Hn as <-. exact Hlo.
    + specialize (IH _ _ _ Ha Hn). unfold resumeIndex in IH. lia.
Qed.

Lemma ascending_pair (ms : list MatchResult) :
  forall lo i j m1 m2,
    ascending lo ms -> i < j ->
    nth_error ms i = Some m1 -> nth_error ms j = Some m2 ->
    resumeIndex m1 <= index m2.
Proof.
  induction ms as [|m0 ms IH]; intros lo i j m1 m2 Ha Hij H1 H2.
  - destruct i; discriminate.
  - destruct Ha as [Hlo Ha]. destruct j as [|j]; [lia|].
    destruct i as [|i]; simpl in H1, H2.
    + injection H1 as <-. exact (ascending_nth _ _ _ _ Ha H2).
    + apply (IH _ i j m1 m2 Ha); [lia | exact H1 | exact H2].
Qed.

(** Inside a match of the combined pattern no alternative starts. *)
Lemma CHECKER_PATTERN_inside (s b : jsstring) (d : nat) :
  matchAt (alternatives CHECKER_PATTERN) s = Some b ->
  0 < d < length b ->
  matchAt (alternatives CHECKER_PATTERN) (skipn d s) = None.
Proof.
  intros Hm Hd. apply matchAt_Some in Hm as [Hb Hs].
  rewrite CHECKER_PATTERN_alternatives_split in Hb |- *.
  apply in_app_or in Hb as [Hb | [<- | []]].
  - apply in_map_iff in Hb as [c [<- _]]. simpl in Hd. lia.
  - apply startsWith_true in Hs as [suf ->].
    unfold ellipsisAlternative in *. simpl in Hd.
    destruct d as [|[|[|[|[|[|[|d]]]]]]]; try lia; reflexivity.
Qed.

Lemma matchAt_CHECKER_PATTERN_nil :
  matchAt (alternatives CHECKER_PATTERN) [] = None.
Proof. reflexivity. Qed.

Lemma matchAll_CHECKER_PATTERN_In (text : jsstring) (i : nat) (a : jsstring) :
  In (mkMatch i a) (execAll (alternatives CHECKER_PATTERN) 0 0 text)
  <-> matchAt (alternatives CHECKER_PATTERN) (skipn i text) = Some a.
Proof.
  split.
  - intros H. apply execAll_exact in H as [_ H]. simpl in H.
    rewrite Nat.sub_0_r in H. exact H.
  - intros Ha.
    assert (Hi : i <= length text).
    { destruct (Nat.le_gt_cases i (length text)) as [Hle|Hgt]; [exact Hle|].
      rewrite skipn_all2, matchAt_CHECKER_PATTERN_nil in Ha by lia.
      discriminate. }
    destruct (execAll_covers (alternatives CHECKER_PATTERN) text 0 0 i
                ltac:(lia) Hi ltac:(eauto)) as [m (Hm & Hlo & Hhi)].
    pose proof (execAll_exact _ _ _ _ _ Hm) as [_ Hexact].
    rewrite Nat.sub_0_r in Hexact. unfold resumeIndex in Hhi.
    simpl in Hlo, Hhi.
    destruct (Nat.eq_dec (index m) i) as [Heq|Hne].
    + rewrite Heq, Ha in Hexact. injection Hexact as Hexact.
      destruct m as [mi ma]. simpl in *. subst. exact Hm.
    + exfalso.
      pose proof (CHECKER_PATTERN_inside _ _ (i - index m) Hexact
                    ltac:(lia)) as Hnone.
      rewrite skipn_skipn in Hnone.
      replace (i - index m + index m) with i in Hnone by lia.
      congruence.
Qed.

(** A match of the combined pattern starts with a character of the text
    that is no newline. *)
Lemma matchAll_CHECKER_PATTERN_head (text : jsstring) (m : MatchResult) :
  In m (execAll (alternatives CHECKER_PATTERN) 0 0 text) ->
  exists c rest,
    matched m = c :: rest /\ nth_error text (index m) = Some c
    /\ c <> 10%N.
Proof.
  intros Hm. apply execAll_exact in Hm as [_ Hm].
  rewrite Nat.sub_0_r in Hm. apply matchAt_Some in Hm as [Ha Hs].
  assert (Hall : forallb (fun a => match a with
                                   | c :: _ => negb (N.eqb c 10)
                                   | [] => false
                                   end)
                         (alternatives CHECKER_PATTERN) = true)
    by (vm_compute; reflexivity).
  rewrite forallb_forall in Hall. specialize (Hall _ Ha).
  destruct (matched m) as [|c rest]; [discriminate|].
  exists c, rest. split; [reflexivity|].
  split; [exact (startsWith_nth_error _ _ _ _ Hs)|].
  intros ->. discriminate.
Qed.

Lemma firstn_succ_nth_error (t : jsstring) :
  forall a c, nth_error t a = Some c -> firstn (a + 1) t = firstn a t ++ [c].
Proof.
  induction t as [|x t IH]; intros [|a] c H; simpl in H; try discriminate.
  - injection H as ->. reflexivity.
  - simpl. rewrite (IH _ _ H). reflexivity.
Qed.

Lemma countOf_app (cs x y : jsstring) :
  countOf cs (x ++ y) = countOf cs x + countOf cs y.
Proof. induction x as [|c x IH]; simpl; [|rewrite IH]; lia. Qed.

Lemma countOf_firstn_le (cs t : jsstring) (n n' : nat) :
  n <= n' -> countOf cs (firstn n t) <= countOf cs (firstn n' t).
Proof.
  revert n n'. induction t as [|c t IH]; intros n n' Hle.
  - rewrite !firstn_nil. lia.
  - destruct n as [|n]; [simpl; lia|]. destruct n' as [|n']; [lia|].
    simpl. specialize (IH n n' ltac:(lia)). lia.
Qed.

Lemma countOf_firstn_all (cs t : jsstring) (n : nat) :
  countOf cs (firstn n t) <= countOf cs t.
Proof.
  rewrite <- (firstn_all t) at 2.
  destruct (Nat.le_gt_cases n (length t)) as [Hle|Hgt].
  - apply countOf_firstn_le. exact Hle.
  - rewrite (firstn_all2 (n := n)) by lia. rewrite firstn_all. lia.
Qed.

(** The text before a position is without newline, or has a last one. *)
Lemma last_separator (sep : N) (x : jsstring) :
  ~ In sep x \/ exists x1 x2, x = x1 ++ sep :: x2 /\ ~ In sep x2.
Proof.
  induction x as [|y x IH]; [left; intros []|].
  destruct IH as [Hno | [x1 [x2 [-> Hno]]]].
  - destruct (N.eq_dec y sep) as [->|Hne].
    + right. exists [], x. split; [reflexivity | exact Hno].
    + left. intros [H|H]; [exact (Hne H) | exact (Hno H)].
  - right. exists (y :: x1), x2. split; [reflexivity | exact Hno].
Qed.

Lemma columnOffset_line (x : jsstring) (n : nat) :
  ~ In 10%N x ->
  fold_left (fun n c => if N.eqb c 10 then 0 else S n) x n = n + length x.
Proof.
  revert n. induction x as [|c x IH]; intros n H; simpl; [lia|].
  destruct (N.eqb_spec c 10) as [->|_]; [exfalso; apply H; left; reflexivity|].
  rewrite IH by (intros Hin; apply H; right; exact Hin). lia.
Qed.

(** The last line of a text that ends with a character other than the
    newline. *)
Lemma last_line_length (x : jsstring) (c : N) :
  c <> 10%N ->
  length (List.last (split 10 (x ++ [c])) []) = S (columnOffset x).
Proof.
  intros Hc. unfold columnOffset.
  assert (Hline : forall x2, ~ In 10%N x2 -> ~ In 10%N (x2 ++ [c])).
  { intros x2 H Hin. apply in_app_or in Hin as [Hin|[Hin|[]]];
      [exact (H Hin) | congruence]. }
  destruct (last_separator 10 x) as [Hno | [x1 [x2 [-> Hno]]]].
  - rewrite split_no_separator by (apply Hline; exact Hno).
    rewrite columnOffset_line by exact Hno. simpl.
    rewrite length_app. simpl. lia.
  - rewrite <- app_assoc. simpl. rewrite split_app_separator.
    rewrite (split_no_separator _ _ (Hline _ Hno)), last_last.
    rewrite fold_left_app. simpl.
    rewrite columnOffset_line by exact Hno.
    rewrite length_app. simpl. lia.
Qed.

(** The coordinate of a match of the combined pattern, counted
    directly. *)
Lemma coordinateOf_CHECKER_PATTERN (text : jsstring) (m : MatchResult) :
  In m (execAll (alternatives CHECKER_PATTERN) 0 0 text) ->
  coordinateOf text m
  = (S (countOf [10%N] (firstn (index m) text)),
     columnOffset (firstn (index m) text) + 2,
     nth_error text (index m)).
Proof.
  intros Hm.
  destruct (matchAll_CHECKER_PATTERN_head _ _ Hm) as [c [rest [_ [Hc Hnl]]]].
  unfold coordinateOf. cbn zeta.
  rewrite (firstn_succ_nth_error _ _ _ Hc).
  rewrite split_length, countOf_app, (last_line_length _ _ Hnl). simpl.
  destruct (N.eqb_spec c 10) as [->|_]; [contradiction|].
  simpl. f_equal. f_equal; lia.
Qed.

(** ** The rules over single characters, character by character *)

Lemma splice_characters (cs : jsstring) (v0 : N) (t : jsstring) :
  splice (List.map (fun x => [x]) cs) [v0] 0 t
  = List.map (fun c => if existsb (N.eqb c) cs then v0 else c) t.
Proof.
  induction t as [|c t IH].
  - simpl. rewrite <- (app_nil_r (List.map _ cs)), matchAt_characters_nil.
    reflexivity.
  - cbn [splice List.map].
    rewrite <- (app_nil_r (List.map _ cs)), matchAt_characters.
    rewrite app_nil_r.
    destruct (existsb (N.eqb c) cs); simpl; rewrite IH; reflexivity.
Qed.

Lemma characterRules_replace (kv : RegExp * jsstring) (t : jsstring) :
  In kv characterRules ->
  replace (fst kv) (snd kv) t = List.map (characterStep kv) t.
Proof.
  intros Hkv.
  assert (Hall : forallb (fun kv => global (fst kv)
                                    && Nat.eqb (length (snd kv)) 1)
                         characterRules = true) by reflexivity.
  rewrite forallb_forall in Hall.
  pose proof (Hall kv Hkv) as Hgv.
  apply andb_true_iff in Hgv as [Hg Hv]. apply Nat.eqb_eq in Hv.
  rewrite replace_global by exact Hg.
  rewrite (characterRules_single kv Hkv).
  destruct (snd kv) as [|v0 [|v1 v]] eqn:Ev; try discriminate.
  rewrite splice_characters. unfold characterStep. rewrite Ev.
  reflexivity.
Qed.

Lemma fold_characterRules (rules : list (RegExp * jsstring)) :
  (forall kv, In kv rules -> In kv characterRules) ->
  forall t,
    fold_left (fun result kv => replace (fst kv) (snd kv) result) rules t
    = List.map (fun c => fold_left (fun c kv => characterStep kv c) rules c)
               t.
Proof.
  induction rules as [|kv rules IH]; intros Hin t; simpl.
  - rewrite map_id. reflexivity.
  - rewrite characterRules_replace by (apply Hin; left; reflexivity).
    rewrite IH by (intros kv' H; apply Hin; right; exact H).
    rewrite map_map. reflexivity.
Qed.

(** A character that is in no class goes through the rules as it is. *)
Lemma characterStep_stable (rules : list (RegExp * jsstring)) (x : N) :
  (forall kv, In kv rules ->
              existsb (N.eqb x) (concat (alternatives (fst kv))) = false) ->
  fold_left (fun c kv => characterStep kv c) rules x = x.
Proof.
  induction rules as [|kv rules IH]; intros H; simpl; [reflexivity|].
  unfold characterStep at 2. rewrite (H kv (or_introl eq_refl)).
  apply IH. intros kv' Hkv'. apply H. right. exact Hkv'.
Qed.

(** The replacement of a rule is in the class of no rule. *)
Lemma characterRules_replacement (kv kv' : RegExp * jsstring) (c : N) :
  In kv characterRules -> In kv' characterRules ->
  existsb (N.eqb (hd c (snd kv))) (concat (alternatives (fst kv'))) = false.
Proof.
  intros Hkv Hkv'.
  assert (Hall : forallb
                   (fun kv =>
                      Nat.eqb (length (snd kv)) 1
                      && forallb
                           (fun kv' =>
                              negb (existsb (N.eqb (hd 0%N (snd kv)))
                                      (concat (alternatives (fst kv')))))
                           characterRules)
                   characterRules = true) by (vm_compute; reflexivity).
  rewrite forallb_forall in Hall.
  pose proof (Hall kv Hkv) as H. apply andb_true_iff in H as [Hlen H].
  rewrite forallb_forall in H. specialize (H kv' Hkv').
  apply negb_true_iff in H. apply Nat.eqb_eq in Hlen.
  destruct (snd kv) as [|v0 v]; [discriminate | exact H].
Qed.

(** The rules in turn do to a character what the first rule that has it
    in its class does. *)
Lemma fold_characterStep (rules : list (RegExp * jsstring)) (c : N) :
  (forall kv, In kv rules -> In kv characterRules) ->
  fold_left (fun c kv => characterStep kv c) rules c
  = match List.find (fun kv => existsb (N.eqb c)
                                 (concat (alternatives (fst kv)))) rules with
    | Some kv => hd c (snd kv)
    | None => c
    end.
Proof.
  induction rules as [|kv rules IH]; intros Hin; simpl; [reflexivity|].
  unfold characterStep at 2.
  destruct (existsb (N.eqb c) (concat (alternatives (fst kv)))).
  - apply characterStep_stable. intros kv' Hkv'.
    apply characterRules_replacement; apply Hin; [left | right];
      [reflexivity | exact Hkv'].
  - apply IH. intros kv' Hkv'. apply Hin. right. exact Hkv'.
Qed.

Lemma find_class (cs : jsstring) (h : N -> N) (rest : list (N * N)) (c : N) :
  List.find (fun p => N.eqb c (fst p))
            (List.map (fun x => (x, h x)) cs ++ rest)
  = if existsb (N.eqb c) cs then Some (c, h c)
    else List.find (fun p => N.eqb c (fst p)) rest.
Proof.
  induction cs as [|x cs IH]; simpl; [reflexivity|].
  destruct (N.eqb_spec c x) as [->|_]; simpl; [reflexivity | exact IH].
Qed.

Lemma find_rule_table (rules : list (RegExp * jsstring)) (c : N) :
  match List.find (fun kv => existsb (N.eqb c)
                               (concat (alternatives (fst kv)))) rules with
  | Some kv => hd c (snd kv)
  | None => c
  end
  = match List.find (fun p => N.eqb c (fst p))
            (flat_map (fun kv => List.map (fun x => (x, hd x (snd kv)))
                                   (concat (alternatives (fst kv))))
                      rules) with
    | Some p => snd p
    | None => c
    end.
Proof.
  induction rules as [|kv rules IH]; simpl; [reflexivity|].
  rewrite (find_class _ (fun x => hd x (snd kv))).
  destruct (existsb (N.eqb c) (concat (alternatives (fst kv))));
    [reflexivity | exact IH].
Qed.

Lemma halfWidthTable_rules :
  halfWidthTable
  = flat_map (fun kv => List.map (fun x => (x, hd x (snd kv)))
                          (concat (alternatives (fst kv))))
             characterRules.
Proof. vm_compute. reflexivity. Qed.

Lemma characterRules_halfWidth (c : N) :
  fold_left (fun c kv => characterStep kv c) characterRules c = halfWidth c.
Proof.
  rewrite fold_characterStep by tauto.
  rewrite find_rule_table. unfold halfWidth.
  rewrite halfWidthTable_rules. reflexivity.
Qed.

Lemma fixPunctuation_characters (t : jsstring) :
  fixPunctuation t
  = replace (re_g ellipsisAlternative) (ofAscii "...")
            (List.map halfWidth t).
Proof.
  unfold fixPunctuation. rewrite PUNCTUATION_MAP_split, fold_left_app.
  cbn [fold_left fst snd]. f_equal.
  rewrite fold_characterRules by tauto.
  apply map_ext. exact characterRules_halfWidth.
Qed.

(** ** The ellipsis rule: lengths and newlines *)

(** Each replacement of the seven characters by three makes the text four
    shorter. *)
Lemma splice_ellipsis_length (t : jsstring) :
  forall skip idx,
    skip <= length t ->
    length (splice [ellipsisAlternative] (ofAscii "...") skip t)
    + 4 * length (execAll [ellipsisAlternative] skip idx t) + skip
    = length t.
Proof.
  induction t as [|c t IH]; intros skip idx Hskip.
  - simpl in Hskip. assert (skip = 0) by lia. subst. reflexivity.
  - destruct skip as [|k].
    + cbn [splice execAll].
      destruct (matchAt [ellipsisAlternative] (c :: t)) as [a|] eqn:E.
      * apply matchAt_Some in E as [[<-|[]] Hs].
        pose proof (startsWith_length _ _ Hs) as Hlen.
        specialize (IH 6 (S idx) ltac:(simpl in Hlen; lia)).
        change (length ellipsisAlternative - 1) with 6.
        unfold ellipsisAlternative at 1.
        rewrite length_app. simpl in IH |- *. lia.
      * specialize (IH 0 (S idx) ltac:(lia)). simpl. lia.
    + cbn [splice execAll]. simpl in Hskip.
      specialize (IH k (S idx) ltac:(lia)). simpl. lia.
Qed.

(** The replacement neither takes a newline away nor brings one. *)
Lemma splice_ellipsis_newlines (t : jsstring) :
  forall skip,
    skip <= length t ->
    countOf [10%N] (splice [ellipsisAlternative] (ofAscii "...") skip t)
    + countOf [10%N] (firstn skip t)
    = countOf [10%N] t.
Proof.
  induction t as [|c t IH]; intros skip Hskip.
  - simpl in Hskip. assert (skip = 0) by lia. subst. reflexivity.
  - destruct skip as [|k].
    + cbn [splice firstn].
      destruct (matchAt [ellipsisAlternative] (c :: t)) as [a|] eqn:E.
      * apply matchAt_Some in E as [[<-|[]] Hs].
        apply startsWith_true in Hs as [suf Hs].
        injection Hs as -> ->.
        specialize (IH 6 ltac:(simpl; lia)).
        cbn [firstn app] in IH.
        change (countOf [10%N] [123; 49; 44; 32; 50; 125]%N) with 0 in IH.
        unfold ellipsisAlternative at 1. rewrite countOf_app.
        simpl in IH |- *. lia.
      * specialize (IH 0 ltac:(lia)). rewrite firstn_O in IH.
        simpl in IH |- *. lia.
    + cbn [splice firstn]. simpl in Hskip.
      specialize (IH k ltac:(lia)). simpl. lia.
Qed.

Lemma halfWidth_newline (c : N) :
  N.eqb (halfWidth c) 10 = N.eqb c 10.
Proof.
  unfold halfWidth.
  destruct (List.find (fun p => N.eqb c (fst p)) halfWidthTable)
    as [p|] eqn:E; [|reflexivity].
  apply find_some in E as [Hin Hc]. apply N.eqb_eq in Hc. subst c.
  unfold halfWidthTable in Hin. simpl in Hin.
  repeat (destruct Hin as [<-|Hin]; [reflexivity|]). contradiction.
Qed.

Lemma countOf_newline_halfWidth (t : jsstring) :
  countOf [10%N] (List.map halfWidth t) = countOf [10%N] t.
Proof.
  induction t as [|c t IH]; simpl; [reflexivity|].
  rewrite !orb_false_r, halfWidth_newline, IH. reflexivity.
Qed.

(** ** More on runs *)

Section MoreRuns.

Variable join : jsstring -> jsstring -> jsstring.
Variable __dirname : jsstring.

Lemma forOf_app {A S : Type} (xs ys : list A) (body : S -> A -> Run S) :
  forall s w,
    forOf (xs ++ ys) body s w
    = match forOf xs body s w with
      | Returned s' w' => forOf ys body s' w'
      | Exited code w' => Exited code w'
      | Thrown w' => Thrown w'
      end.
Proof.
  induction xs as [|x xs IH]; intros s w; [reflexivity|].
  cbn [app forOf]. unfold mbind, Run_bind.
  destruct (body s x w) as [s' w'|code w'|w']; [apply IH | | ]; reflexivity.
Qed.

(** The counters of detection mode, counted over the list. *)
Lemma tally_counts (absolute : bool) (fs : gmap (list N) (list N))
  (paths : list jsstring) :
  forall st,
    errFileCount (tally join __dirname absolute fs paths st)
    = errFileCount st
      + length (List.filter (hasMatch join __dirname absolute fs) paths)
    /\ errCount (tally join __dirname absolute fs paths st)
       = errCount st
         + list_sum (List.map (matchCount join __dirname absolute fs) paths).
Proof.
  unfold tally.
  induction paths as [|p paths IH]; intros st; [simpl; lia|].
  cbn [fold_left List.filter List.map list_sum].
  destruct (IH (tallyFile join __dirname absolute fs st p)) as [-> ->].
  unfold tallyFile, hasMatch, matchCount.
  destruct (fs !! absPathOf join __dirname absolute p) as [content|];
    [|simpl; lia].
  destruct (test CHECKER_PATTERN content) eqn:Ht; simpl; [lia|].
  rewrite (coordinatesOfChars_clean _ Ht). simpl. lia.
Qed.

(** In fix mode the counter of fixed files goes with the writes. *)
Lemma scan_fix_count (processer : jsstring -> jsstring) (absolute : bool)
  (paths : list jsstring) :
  forall st w st' w',
    forOf paths (iterateFile join __dirname processer true absolute) st w
    = Returned st' w' ->
    fixedFileCount st' + length (writes w)
    = fixedFileCount st + length (writes w').
Proof.
  induction paths as [|p paths IH]; intros st w st' w' H.
  - injection H as <- <-. reflexivity.
  - cbn [forOf] in H. unfold mbind, Run_bind in H.
    destruct (files w !! absPathOf join __dirname absolute p)
      as [content|] eqn:Hc;
      [|rewrite iterateFile_unreadable in H by exact Hc; discriminate].
    rewrite (iterateFile_fix _ _ _ _ _ _ _ _ Hc) in H.
    destruct (test CHECKER_PATTERN content); apply IH in H; simpl in H.
    + rewrite length_app in H. simpl in H. lia.
    + exact H.
Qed.

(** A fix run, with its summary line. *)
Lemma iterateFiles_fix_summary (absolute : bool) (paths : list jsstring)
  (w : World) :
  readable join __dirname absolute (files w) paths ->
  exists w1 new,
    fixOutcome join __dirname absolute paths w w1 new
    /\ iterateFiles join __dirname paths fixPunctuation true absolute w
       = Returned tt
           (addConsole w1
              [MsgScanning (length paths); MsgFinding DOCS_PATTERN;
               match new with
               | [] => MsgNoError
               | _ :: _ => MsgSummaryFixed (length new)
               end]).
Proof.
  intros Hr.
  destruct (scan_fix_returns join __dirname fixPunctuation absolute paths
              (mkCounters 0 false 0 0) (addConsole w [MsgLinting true]) Hr)
    as [st' [w1 Hscan]].
  pose proof (scan_fix_count _ _ _ _ _ _ _ Hscan) as Hcount.
  destruct (scan_fix_outcome _ _ _ _ _ _ _ _ Hscan) as [new Hout].
  exists w1, new. split; [exact Hout|].
  destruct Hout as [Hw _]. simpl in Hw, Hcount.
  rewrite Hw, length_app in Hcount.
  assert (Hn : fixedFileCount st' = length new) by lia.
  unfold iterateFiles, mbind, Run_bind. rewrite console_log_run.
  unfold scanFiles. rewrite Hscan.
  rewrite !console_log_run, !addConsole_app. cbn [negb]. rewrite Hn.
  destruct new; simpl; rewrite console_log_run, addConsole_app; reflexivity.
Qed.

(** After a fix run every file of the list is there and has no match. *)
Lemma fixOutcome_clean (absolute : bool) (paths : list jsstring)
  (w w' : World) (new : list (list N * list N)) :
  readable join __dirname absolute (files w) paths ->
  fixOutcome join __dirname absolute paths w w' new ->
  forall p, In p paths ->
    exists c, files w' !! absPathOf join __dirname absolute p = Some c
              /\ test CHECKER_PATTERN c = false.
Proof.
  intros Hr (_ & _ & _ & Hfix & Hkeep) p Hp.
  destruct (Hr p Hp) as [c Hc].
  assert (Hq : In (absPathOf join __dirname absolute p)
                  (List.map (absPathOf join __dirname absolute) paths))
    by (apply in_map; exact Hp).
  destruct (test CHECKER_PATTERN c) eqn:Ht.
  - exists (fixPunctuation c). split; [apply (Hfix _ _ Hq Hc Ht)|].
    apply fixPunctuation_no_match.
  - exists c. split; [|exact Ht]. rewrite Hkeep; [exact Hc|]. eauto.
Qed.

(** What a fix-mode loop prints: one line for each file, saying that it
    was fixed or that it is clean. *)
Lemma scan_fix_console (processer : jsstring -> jsstring) (absolute : bool)
  (paths : list jsstring) :
  forall st w st' w',
    forOf paths (iterateFile join __dirname processer true absolute) st w
    = Returned st' w' ->
    exists lines,
      console w' = console w ++ lines
      /\ Forall2 (fun p m => m = MsgFixed p \/ m = MsgClean p) paths lines.
Proof.
  induction paths as [|p paths IH]; intros st w st' w' H.
  - injection H as _ <-. exists []. rewrite app_nil_r.
    split; [reflexivity | constructor].
  - cbn [forOf] in H. unfold mbind, Run_bind in H.
    destruct (files w !! absPathOf join __dirname absolute p)
      as [content|] eqn:Hc;
      [|rewrite iterateFile_unreadable in H by exact Hc; discriminate].
    rewrite (iterateFile_fix _ _ _ _ _ _ _ _ Hc) in H.
    destruct (test CHECKER_PATTERN content);
      apply IH in H as [lines [Hcon Hall]]; simpl in Hcon;
      rewrite <- app_assoc in Hcon.
    + exists (MsgFixed p :: lines). split; [exact Hcon|].
      constructor; [left; reflexivity | exact Hall].
    + exists (MsgClean p :: lines). split; [exact Hcon|].
      constructor; [right; reflexivity | exact Hall].
Qed.

End MoreRuns.

(** ** Matches and match positions of the rules *)

Lemma matchPositions_characters (cs : jsstring) (t : jsstring) :
  matchPositions (List.map (fun x => [x]) cs) t = countOf cs t.
Proof.
  induction t as [|c t IH].
  - simpl. rewrite <- (app_nil_r (List.map _ cs)), matchAt_characters_nil.
    reflexivity.
  - cbn [matchPositions countOf].
    rewrite <- (app_nil_r (List.map _ cs)), matchAt_characters.
    rewrite app_nil_r, IH.
    destruct (existsb (N.eqb c) cs); reflexivity.
Qed.

(** The matches of the ellipsis rule are at the positions where its
    pattern matches: none of them lies inside another. *)
Lemma execAll_ellipsis_positions (t : jsstring) :
  forall skip idx,
    skip <= length t ->
    length (execAll [ellipsisAlternative] skip idx t)
    = matchPositions [ellipsisAlternative] (skipn skip t).
Proof.
  induction t as [|c t IH]; intros skip idx Hskip.
  - simpl in Hskip. assert (skip = 0) by lia. subst. reflexivity.
  - destruct skip as [|k].
    + cbn [execAll skipn matchPositions].
      destruct (matchAt [ellipsisAlternative] (c :: t)) as [a|] eqn:E.
      * apply matchAt_Some in E as [[<-|[]] Hs].
        apply startsWith_true in Hs as [suf Hs].
        injection Hs as -> ->.
        change (length ellipsisAlternative - 1) with 6.
        cbn [length]. rewrite IH by (simpl; lia). reflexivity.
      * cbn [length]. rewrite (IH 0) by lia. reflexivity.
    + cbn [execAll skipn]. apply IH. simpl in Hskip. lia.
Qed.

Lemma rules_matchAll_count (t : jsstring) :
  list_sum (List.map (fun kv => length (matchAll (fst kv) t))
                     PUNCTUATION_MAP)
  = countOf fullWidthCharacters t
    + length (execAll [ellipsisAlternative] 0 0 t).
Proof.
  rewrite <- rules_match_count. f_equal. apply map_ext. intros kv.
  rewrite coordinatesOfChars_length. reflexivity.
Qed.

Lemma rules_matchPositions_count (t : jsstring) :
  list_sum (List.map (fun kv => matchPositions (alternatives (fst kv)) t)
                     PUNCTUATION_MAP)
  = countOf fullWidthCharacters t
    + length (execAll [ellipsisAlternative] 0 0 t).
Proof.
  rewrite PUNCTUATION_MAP_split, map_app, list_sum_app.
  cbn [List.map list_sum fst].
  change (alternatives (re_g ellipsisAlternative))
    with [ellipsisAlternative].
  rewrite (execAll_ellipsis_positions t 0 0) by lia.
  cbn [skipn].
  replace (list_sum [matchPositions [ellipsisAlternative] t])
    with (matchPositions [ellipsisAlternative] t) by (simpl; lia).
  f_equal.
  rewrite <- countOf_classes. unfold characterClasses.
  rewrite map_map. f_equal. apply map_ext_in. intros kv Hkv.
  rewrite (characterRules_single kv Hkv) at 1.
  apply matchPositions_characters.
Qed.

(** * The documented properties *)

(** ** Coordinates *)

(** C1: the claim is that a match at the very first character is reported
    at line 1, column 1, and a match right after a newline at column 1 of
    its line.  The code reports column 2 in both cases: the prefix it
    splits into lines already ends with the matched character, and it adds
    one to the length of the last line. *)
Theorem first_character_column :
  coordinatesOfChars CHECKER_PATTERN [65292]%N = [(1, 2, Some 65292%N)]
  /\ coordinatesOfChars CHECKER_PATTERN [97; 10; 65292]%N
     = [(2, 2, Some 65292%N)].
Proof. split; vm_compute; reflexivity. Qed.

(** C9: every match of the combined pattern gives one coordinate, the
    coordinates are in the order of the matches, and the character of a
    coordinate is the single character of the text at the index of its
    match, which is the first character of the matched substring, however
    long the match is (the text […{1, 2}] is one match of seven characters
    and gives the one coordinate of its ellipsis). *)
Theorem coordinate_character (text : jsstring) :
  let matches := matchAll (mkRegExp (source CHECKER_PATTERN) true) text in
  let coordinates := coordinatesOfChars CHECKER_PATTERN text in
  length coordinates = length matches
  /\ (forall i m,
        nth_error matches i = Some m ->
        exists lineNumber colNumber c rest,
          nth_error coordinates i = Some (lineNumber, colNumber, Some c)
          /\ nth_error text (index m) = Some c
          /\ matched m = c :: rest)
  /\ matchAll (mkRegExp (source CHECKER_PATTERN) true) ellipsisAlternative
     = [mkMatch 0 ellipsisAlternative]
  /\ coordinatesOfChars CHECKER_PATTERN ellipsisAlternative
     = [(1, 2, Some 8230%N)].
Proof.
  cbv zeta. split; [apply length_map|]. split; [|split; reflexivity].
  intros i m Hm. unfold coordinatesOfChars.
  rewrite nth_error_map, Hm. simpl.
  apply nth_error_In in Hm. unfold matchAll in Hm.
  apply execAll_sound in Hm as [_ [Ha Hs]].
  change (alternatives (mkRegExp (source CHECKER_PATTERN) true))
    with (alternatives CHECKER_PATTERN) in Ha.
  apply CHECKER_PATTERN_nonempty in Ha as [c [rest Hc]].
  rewrite Hc, Nat.sub_0_r in Hs. apply startsWith_nth_error in Hs.
  unfold coordinateOf. rewrite Hs. eauto 10.
Qed.

(** In [a…{1, 2}，] the first match is the seven characters at index 1,
    and its coordinate has the ellipsis. *)
Lemma coordinate_character_witness :
  nth_error (matchAll (mkRegExp (source CHECKER_PATTERN) true) ellipsisLine) 0
  = Some (mkMatch 1 ellipsisAlternative)
  /\ exists lineNumber colNumber c rest,
       nth_error (coordinatesOfChars CHECKER_PATTERN ellipsisLine) 0
       = Some (lineNumber, colNumber, Some c)
       /\ nth_error ellipsisLine 1 = Some c
       /\ ellipsisAlternative = c :: rest.
Proof.
  assert (H : nth_error (matchAll (mkRegExp (source CHECKER_PATTERN) true)
                                  ellipsisLine) 0
              = Some (mkMatch 1 ellipsisAlternative))
    by (vm_compute; reflexivity).
  split; [exact H|].
  exact (proj1 (proj2 (coordinate_character ellipsisLine)) 0
               (mkMatch 1 ellipsisAlternative) H).
Defined.

(** C5, as claimed: in the text […{1, 2}] the combined pattern finds one
    coordinate, and the rules, scanned one by one, match seven
    characters. *)
Lemma combined_count_not_characters :
  length (coordinatesOfChars CHECKER_PATTERN ellipsisAlternative)
  <> list_sum (List.map (fun kv => matchedCharacters (fst kv)
                                     ellipsisAlternative)
                        PUNCTUATION_MAP).
Proof. vm_compute. discriminate. Qed.

(** C5, amended: the number of coordinates found with the combined
    pattern is the number of matches found by scanning the same text with
    the pattern of each rule on its own, summed over the rules, a match
    counting once however many characters it has; it is also the number
    of positions of the text at which the pattern of a rule matches,
    summed over the rules. *)
Theorem combined_match_count (text : jsstring) :
  length (coordinatesOfChars CHECKER_PATTERN text)
  = list_sum (List.map (fun kv => length (matchAll (fst kv) text))
                       PUNCTUATION_MAP)
  /\ length (coordinatesOfChars CHECKER_PATTERN text)
     = list_sum (List.map (fun kv => matchPositions (alternatives (fst kv))
                                       text)
                          PUNCTUATION_MAP).
Proof.
  rewrite rules_matchAll_count, rules_matchPositions_count.
  rewrite coordinatesOfChars_length.
  pose proof (execAll_combined text 0 0) as H.
  rewrite firstn_O in H. simpl in H. split; lia.
Qed.

(** ** Fixes *)

(** C2, as claimed: the text [He said “hi”…] does not become
    [He said 'hi'...]. *)
Lemma quoted_ellipsis_not_single_quotes :
  fixPunctuation quotedEllipsis <> ofAscii "He said 'hi'...".
Proof. vm_compute. discriminate. Qed.

(** C2, amended: in [He said “hi”…] the curly double quotes become
    straight double quotes, so that the fixed text starts with
    [He said "hi"]. *)
Theorem quoted_ellipsis_double_quotes :
  startsWith (ofAscii "He said " ++ [34] ++ ofAscii "hi" ++ [34])%N
             (fixPunctuation quotedEllipsis) = true.
Proof. vm_compute. reflexivity. Qed.

(** What the code does with the whole of [He said “hi”…], and with the
    ellipsis rule: its pattern has no quantifier and matches the seven
    characters […{1, 2}] only, so that one or two ellipses stay. *)
Example quoted_ellipsis_output :
  fixPunctuation quotedEllipsis
  = (ofAscii "He said " ++ [34] ++ ofAscii "hi" ++ [34; 8230])%N.
Proof. vm_compute. reflexivity. Qed.

Example ellipsis_rule_output :
  fixPunctuation [8230]%N = [8230]%N
  /\ fixPunctuation [8230; 8230]%N = [8230; 8230]%N
  /\ fixPunctuation ellipsisAlternative = ofAscii "...".
Proof. repeat split; vm_compute; reflexivity. Qed.

(** C8: [你好，世界。] becomes [你好,世界.]: the full-width comma and
    the ideographic full stop become the ASCII comma and full stop and
    the other characters stay. *)
Theorem hello_world_fixed :
  fixPunctuation helloWorld = [20320; 22909; 44; 19990; 30028; 46]%N.
Proof. vm_compute. reflexivity. Qed.

(** C3: no matcher of the table occurs in a fixed text, and fixing a
    second time changes nothing. *)
Theorem fixPunctuation_idempotent (text : jsstring) :
  ~ ruleOccurs (fixPunctuation text)
  /\ fixPunctuation (fixPunctuation text) = fixPunctuation text.
Proof.
  split.
  - rewrite <- test_CHECKER_PATTERN, fixPunctuation_no_match. discriminate.
  - apply fixPunctuation_clean, fixPunctuation_no_match.
Qed.

(** C4: on a text in which no matcher of the table occurs, the existence
    test is false, the fix returns the text and there is no coordinate. *)
Theorem clean_text (text : jsstring) :
  ~ ruleOccurs text ->
  test CHECKER_PATTERN text = false
  /\ fixPunctuation text = text
  /\ coordinatesOfChars CHECKER_PATTERN text = [].
Proof.
  intros H. rewrite <- test_CHECKER_PATTERN in H.
  apply not_true_is_false in H.
  auto using fixPunctuation_clean, coordinatesOfChars_clean.
Qed.

(** The text [plainText] is such a text. *)
Lemma clean_text_witness :
  ~ ruleOccurs plainText
  /\ test CHECKER_PATTERN plainText = false
  /\ fixPunctuation plainText = plainText
  /\ coordinatesOfChars CHECKER_PATTERN plainText = [].
Proof.
  assert (H : ~ ruleOccurs plainText).
  { rewrite <- test_CHECKER_PATTERN. vm_compute. discriminate. }
  split; [exact H | apply (clean_text plainText H)].
Defined.

(** The empty file. *)
Example empty_text_clean :
  test CHECKER_PATTERN [] = false
  /\ fixPunctuation [] = []
  /\ coordinatesOfChars CHECKER_PATTERN [] = [].
Proof. repeat split. Qed.

(** ** Runs *)

Section RunProperties.

Variable join : jsstring -> jsstring -> jsstring.
Variable __dirname : jsstring.

(** C6: over readable files, a detection run returns (status 0) exactly
    when no file has a match and otherwise exits with status 1; either
    way the console has by then the diagnostics of every file of the
    list, in order, followed by the closing lines.  A fix run always
    returns. *)
Theorem run_status (processer : jsstring -> jsstring) (absolute : bool)
  (paths : list jsstring) (w : World) :
  readable join __dirname absolute (files w) paths ->
  let anyMatch :=
    exists p content,
      In p paths
      /\ files w !! absPathOf join __dirname absolute p = Some content
      /\ test CHECKER_PATTERN content = true in
  let detection :=
    iterateFiles join __dirname paths processer false absolute w in
  ((exists w', detection = Returned tt w') <-> ~ anyMatch)
  /\ ((exists w', detection = Exited 1 w') <-> anyMatch)
  /\ (exists summary,
        console (worldOf detection)
        = console w ++
          MsgLinting false ::
          flat_map (diagnostics join __dirname absolute (files w)) paths ++
          [MsgScanning (length paths); MsgFinding DOCS_PATTERN; summary])
  /\ (exists w',
        iterateFiles join __dirname paths processer true absolute w
        = Returned tt w').
Proof.
  intros Hr anyMatch detection.
  pose proof (iterateFiles_detect join __dirname processer absolute paths w Hr)
    as Hd.
  cbv zeta in Hd. fold detection in Hd.
  rewrite tally_errFlag in Hd. cbn [errFlag orb] in Hd.
  assert (Hany : existsb (hasMatch join __dirname absolute (files w)) paths
                 = true <-> anyMatch).
  { rewrite existsb_exists. unfold anyMatch, hasMatch. split.
    - intros [p [Hp Hm]].
      destruct (files w !! absPathOf join __dirname absolute p)
        as [content|] eqn:Hc; [|discriminate]. eauto.
    - intros [p [content [Hp [Hc Hm]]]]. exists p. rewrite Hc. auto. }
  destruct (existsb (hasMatch join __dirname absolute (files w)) paths).
  - assert (Ha : anyMatch) by (apply Hany; reflexivity).
    rewrite Hd. repeat split.
    + intros [w' Hw']. discriminate.
    + intros Hn. contradiction.
    + eauto.
    + eauto.
    + eexists. simpl. rewrite <- ?app_assoc. simpl.
      rewrite <- ?app_assoc. reflexivity.
    + destruct (iterateFiles_fix_returns join __dirname processer absolute
                  paths w Hr) as [st' [w1 [summary [_ Hrun]]]]. eauto.
  - assert (Ha : ~ anyMatch) by (intros Ha; apply Hany in Ha; discriminate).
    rewrite Hd. repeat split.
    + intros _. exact Ha.
    + eauto.
    + intros [w' Hw']. discriminate.
    + intros Hn. contradiction.
    + eexists. simpl. rewrite <- ?app_assoc. simpl.
      rewrite <- ?app_assoc. reflexivity.
    + destruct (iterateFiles_fix_returns join __dirname processer absolute
                  paths w Hr) as [st' [w1 [summary [_ Hrun]]]]. eauto.
Qed.

(** C7: a detection run writes no file, whatever the files and however
    it ends.  A fix run over readable files writes each file that has a
    match once, with the fixed text of its whole content, and writes no
    other file: the files of the list that had a match hold their fixed
    text, every other file is as it was. *)
Theorem files_rewritten (absolute : bool) (paths : list jsstring)
  (w : World) :
  (forall processer,
     let detection :=
       iterateFiles join __dirname paths processer false absolute w in
     files (worldOf detection) = files w
     /\ writes (worldOf detection) = writes w)
  /\ (readable join __dirname absolute (files w) paths ->
      exists w' new,
        iterateFiles join __dirname paths fixPunctuation true absolute w
        = Returned tt w'
        /\ writes w' = writes w ++ new
        /\ NoDup (List.map fst new)
        /\ (forall q d,
              In (q, d) new <->
              In q (List.map (absPathOf join __dirname absolute) paths)
              /\ exists c, files w !! q = Some c /\ ruleOccurs c
                           /\ d = fixPunctuation c)
        /\ (forall q c,
              In q (List.map (absPathOf join __dirname absolute) paths) ->
              files w !! q = Some c -> ruleOccurs c ->
              files w' !! q = Some (fixPunctuation c))
        /\ (forall q,
              ~ In q (List.map (absPathOf join __dirname absolute) paths)
              \/ (exists c, files w !! q = Some c /\ ~ ruleOccurs c) ->
              files w' !! q = files w !! q)).
Proof.
  split.
  - intros processer detection.
    unfold detection, iterateFiles, scanFiles, mbind, Run_bind.
    rewrite !console_log_run.
    pose proof (scan_detect_frame join __dirname processer absolute paths
                  (mkCounters 0 false 0 0) (addConsole w [MsgLinting false]))
      as Hf.
    cbv zeta in Hf. simpl files in Hf. simpl writes in Hf.
    destruct (forOf paths _ _ _) as [st w1| code w1 | w1];
      simpl in Hf; [|exact Hf|exact Hf].
    rewrite !console_log_run. cbn [negb].
    destruct (errFlag st); rewrite !console_log_run; exact Hf.
  - intros Hr.
    destruct (iterateFiles_fix join __dirname absolute paths w Hr)
      as [w' [new [Hrun (Hw & Hnd & Hin & Hfix & Hkeep)]]].
    exists w', new. split; [exact Hrun|]. split; [exact Hw|].
    split; [exact Hnd|]. split; [|split].
    + intros q d. rewrite Hin. split;
        intros [Hq [c [Hl [Ht Hd]]]]; (split; [exact Hq|]); exists c;
        (split; [exact Hl|]); (split; [|exact Hd]);
        apply test_CHECKER_PATTERN; exact Ht.
    + intros q c Hq Hl Ho. apply Hfix; [exact Hq | exact Hl |].
      apply test_CHECKER_PATTERN. exact Ho.
    + intros q [Hq | [c [Hl Ho]]]; apply Hkeep; [left; exact Hq|].
      right. exists c. split; [exact Hl|]. apply not_true_is_false.
      rewrite test_CHECKER_PATTERN. exact Ho.
Qed.

(** C10: a text on which the combined pattern tests true has at least one
    coordinate; so after the loop of a detection run over readable files
    the error count is at least the count of files with errors, and the
    run ends with a non-zero status exactly when the error count is
    positive. *)
Theorem error_counts (processer : jsstring -> jsstring) (absolute : bool)
  (paths : list jsstring) (w : World) :
  readable join __dirname absolute (files w) paths ->
  (forall content,
     test CHECKER_PATTERN content = true ->
     coordinatesOfChars CHECKER_PATTERN content <> [])
  /\ exists st w',
       scanFiles join __dirname paths processer false absolute w
       = Returned st w'
       /\ errFileCount st <= errCount st
       /\ (exitStatus (iterateFiles join __dirname paths processer false
                                    absolute w) <> 0
           <-> 0 < errCount st).
Proof.
  intros Hr. split.
  - intros content Ht Hnil. apply coordinatesOfChars_match in Ht.
    rewrite Hnil in Ht. simpl in Ht. lia.
  - unfold scanFiles.
    rewrite (scan_detect join __dirname processer absolute paths _ w Hr).
    eexists _, _. split; [reflexivity|].
    destruct (tally_consistent join __dirname absolute (files w) paths
                (mkCounters 0 false 0 0)) as [Hle Hflag].
    { unfold countersConsistent. simpl. split; [lia|].
      split; [discriminate | lia]. }
    split; [exact Hle|].
    rewrite (iterateFiles_detect join __dirname processer absolute paths w Hr).
    cbv zeta. rewrite <- Hflag.
    destruct (errFlag (tally _ _ _ _ _ _)); simpl.
    + split; [reflexivity | discriminate].
    + split; [congruence | discriminate].
Qed.

End RunProperties.

(** ** The example run *)

(** Both files of the example exist. *)
Lemma example_readable :
  readable exampleJoin exampleDirname false (files exampleWorld) examplePaths.
Proof.
  intros p Hp. simpl in Hp.
  destruct Hp as [<-|[<-|[<-|[]]]]; vm_compute; eauto.
Defined.

(** The first file of the example has a match. *)
Lemma example_match :
  files exampleWorld
    !! absPathOf exampleJoin exampleDirname false (ofAscii "docs/a.md")
  = Some helloWorld
  /\ test CHECKER_PATTERN helloWorld = true.
Proof. split; vm_compute; reflexivity. Defined.

(** On the example, detection exits with 1 and fixing returns. *)
Lemma run_status_witness :
  readable exampleJoin exampleDirname false (files exampleWorld) examplePaths
  /\ (exists w',
        iterateFiles exampleJoin exampleDirname examplePaths fixPunctuation
                     false false exampleWorld = Exited 1 w')
  /\ (exists w',
        iterateFiles exampleJoin exampleDirname examplePaths fixPunctuation
                     true false exampleWorld = Returned tt w').
Proof.
  split; [exact example_readable|].
  destruct (run_status exampleJoin exampleDirname fixPunctuation false
              examplePaths exampleWorld example_readable)
    as (_ & Hexit & _ & Hfix).
  split; [|exact Hfix].
  apply Hexit. exists (ofAscii "docs/a.md"), helloWorld.
  split; [left; reflexivity | exact example_match].
Defined.

(** On the example, the first file holds its fixed text after fixing. *)
Lemma files_rewritten_witness :
  readable exampleJoin exampleDirname false (files exampleWorld) examplePaths
  /\ files (worldOf (iterateFiles exampleJoin exampleDirname examplePaths
                                  fixPunctuation true false exampleWorld))
       !! ofAscii "/repo/scripts/../docs/a.md"
     = Some (fixPunctuation helloWorld).
Proof.
  split; [exact example_readable|].
  destruct (proj2 (files_rewritten exampleJoin exampleDirname false
                     examplePaths exampleWorld) example_readable)
    as (w' & new & Hrun & _ & _ & _ & Hfixed & _).
  rewrite Hrun. simpl. apply Hfixed.
  - left. reflexivity.
  - vm_compute. reflexivity.
  - apply test_CHECKER_PATTERN. vm_compute. reflexivity.
Defined.

(** On the example, the counters of detection are as stated. *)
Lemma error_counts_witness :
  readable exampleJoin exampleDirname false (files exampleWorld) examplePaths
  /\ exists st w',
       scanFiles exampleJoin exampleDirname examplePaths fixPunctuation
                 false false exampleWorld = Returned st w'
       /\ errFileCount st <= errCount st
       /\ (exitStatus (iterateFiles exampleJoin exampleDirname examplePaths
                                    fixPunctuation false false exampleWorld)
           <> 0
           <-> 0 < errCount st).
Proof.
  split; [exact example_readable|].
  apply (error_counts exampleJoin exampleDirname fixPunctuation false
           examplePaths exampleWorld example_readable).
Defined.

(** * Further properties of the script *)

(** ** The command line *)

(** X1: when no argument is [--paths], [parseArgv] returns options whose
    [paths] are the arguments that do not start with [--], in order (and
    no [paths] when there is none), and in which any other key [k] is
    [true] exactly when [--k] is an argument, the key [__proto__] apart,
    which is never set.  The first two elements of [argv] are not
    arguments. *)
Theorem parseArgv_options (argv : list jsstring) :
  ~ In (ofAscii "--paths") (skipn 2 argv) ->
  exists options,
    parseArgv argv = Normal options
    /\ options !! ofAscii "paths"
       = match List.filter (fun a => negb (isFlag a)) (skipn 2 argv) with
         | [] => None
         | p :: ps => Some (OptPaths (p :: ps))
         end
    /\ forall k,
         k <> ofAscii "paths" ->
         options !! k
         = if bool_decide ((ofAscii "--" ++ k) ∈ skipn 2 argv
                           /\ k <> ofAscii "__proto__")
           then Some OptTrue else None.
Proof.
  intros Hno.
  destruct (parseArgs_plain (skipn 2 argv) ∅ Hno)
    as [options (Hrun & _ & Hpaths & Hkeys)].
  { unfold pathsPushable. rewrite lookup_empty. discriminate. }
  exists options. split; [exact Hrun|]. split.
  - rewrite Hpaths. unfold pathsOf. rewrite lookup_empty.
    destruct (List.filter _ _); reflexivity.
  - intros k Hk. rewrite (Hkeys k Hk), lookup_empty. reflexivity.
Qed.

(** The example of the comment: [fix] is true and the two paths are
    kept in order. *)
Lemma parseArgv_options_witness :
  ~ In (ofAscii "--paths") (skipn 2 exampleArgv)
  /\ exists options,
       parseArgv exampleArgv = Normal options
       /\ options !! ofAscii "paths"
          = Some (OptPaths [ofAscii "C:/dir/example-a.md";
                            ofAscii "C:/dir/subdir/example-b.md"])
       /\ options !! ofAscii "fix" = Some OptTrue.
Proof.
  assert (Hno : ~ In (ofAscii "--paths") (skipn 2 exampleArgv)).
  { simpl. intros [H|[H|[H|[]]]]; vm_compute in H; discriminate. }
  split; [exact Hno|].
  destruct (parseArgv_options exampleArgv Hno)
    as [options (Hrun & Hpaths & Hkeys)].
  exists options. split; [exact Hrun|]. split; [exact Hpaths|].
  rewrite (Hkeys (ofAscii "fix")) by (vm_compute; discriminate).
  reflexivity.
Defined.

(** X2: [parseArgv] ends with a [TypeError] exactly when a [--paths]
    argument is followed, anywhere later, by an argument that does not
    start with [--]: the flag makes [options.paths] true, and the path is
    then pushed onto [true]. *)
Theorem parseArgv_TypeError (argv : list jsstring) :
  parseArgv argv = TypeError
  <-> exists pre rest p,
        skipn 2 argv = pre ++ ofAscii "--paths" :: rest
        /\ In p rest /\ isFlag p = false.
Proof.
  apply parseArgs_TypeError.
  unfold pathsPushable. rewrite lookup_empty. discriminate.
Qed.

(** X3: the loop of [parseArgv] as written, which splices the third
    element out of the copy of [argv] until two are left, ends within
    [argv.length] rounds with the result of [parseArgv], and unless it
    throws it leaves the first two elements of [argv] in the copy. *)
Theorem parseArgv_loop (argv : list jsstring) :
  exists cpy,
    spliceLoop (length argv) argv ∅ = Some (cpy, parseArgv argv)
    /\ (parseArgv argv <> TypeError -> cpy = firstn 2 argv).
Proof. apply spliceLoop_parseArgs. lia. Qed.

Section EntryProperties.

Variable join : jsstring -> jsstring -> jsstring.
Variable __dirname : jsstring.
Variable glob : jsstring -> World -> list jsstring.

(** X4: when no argument is [--paths], the script runs [iterateFiles]
    with [fixPunctuation], in fix mode exactly when [--fix] is an
    argument; on the arguments that do not start with [--], taken as
    absolute paths, when there is one, and otherwise on what the glob of
    [DOCS_PATTERN] finds, taken relative to the script. *)
Theorem script_run (argv : list jsstring) (w : World) :
  ~ In (ofAscii "--paths") (skipn 2 argv) ->
  script join __dirname glob argv w
  = match List.filter (fun a => negb (isFlag a)) (skipn 2 argv) with
    | [] =>
        iterateFiles join __dirname (glob DOCS_PATTERN w) fixPunctuation
          (bool_decide (ofAscii "--fix" ∈ skipn 2 argv)) false w
    | p :: ps =>
        iterateFiles join __dirname (p :: ps) fixPunctuation
          (bool_decide (ofAscii "--fix" ∈ skipn 2 argv)) true w
    end.
Proof.
  intros Hno.
  destruct (parseArgs_plain (skipn 2 argv) ∅ Hno)
    as [options (Hrun & _ & Hpaths & Hkeys)].
  { unfold pathsPushable. rewrite lookup_empty. discriminate. }
  unfold script, parseArgv. rewrite Hrun. unfold main.
  rewrite Hpaths, (Hkeys (ofAscii "fix")) by (vm_compute; discriminate).
  unfold pathsOf. rewrite !lookup_empty.
  assert (Hfix : bool_decide (ofAscii "--fix" ∈ skipn 2 argv)
                 = match (if bool_decide
                               ((ofAscii "--" ++ ofAscii "fix") ∈ skipn 2 argv
                                /\ ofAscii "fix" <> ofAscii "__proto__")
                          then Some OptTrue else None) with
                   | Some _ => true
                   | None => false
                   end).
  { change (ofAscii "--" ++ ofAscii "fix") with (ofAscii "--fix").
    repeat case_bool_decide; try reflexivity; exfalso.
    - apply H0. split; [exact H | vm_compute; discriminate].
    - tauto. }
  rewrite <- Hfix.
  destruct (List.filter _ (skipn 2 argv)); reflexivity.
Qed.

End EntryProperties.

(** With the arguments of the example the script fixes the two files
    given, by their paths as they are. *)
Lemma script_run_witness :
  ~ In (ofAscii "--paths") (skipn 2 exampleArgv)
  /\ script exampleJoin exampleDirname (fun _ _ => []) exampleArgv
            exampleWorld
     = iterateFiles exampleJoin exampleDirname
         [ofAscii "C:/dir/example-a.md"; ofAscii "C:/dir/subdir/example-b.md"]
         fixPunctuation true true exampleWorld.
Proof.
  assert (Hno : ~ In (ofAscii "--paths") (skipn 2 exampleArgv)).
  { simpl. intros [H|[H|[H|[]]]]; vm_compute in H; discriminate. }
  split; [exact Hno|].
  rewrite (script_run exampleJoin exampleDirname (fun _ _ => [])
             exampleArgv exampleWorld Hno).
  reflexivity.
Defined.

(** ** The combined pattern *)

(** X5: for any table with at least one rule (patterns that are
    alternations of literal sequences), the pattern built the way
    [CHECKER_PATTERN] is built, joining the sources with [|], tests true
    on a text exactly when the pattern of some rule does. *)
Theorem combinedPattern_test (rules : list (RegExp * jsstring))
  (text : jsstring) :
  rules <> [] ->
  forallb (fun kv => literalSource (source (fst kv))) rules = true ->
  test (combinedPattern rules) text
  = existsb (fun kv => test (fst kv) text) rules.
Proof.
  intros Hne _. unfold test, alternatives, combinedPattern. cbn [source].
  rewrite split_join by (destruct rules; [contradiction | discriminate]).
  rewrite search_concat, map_map, existsb_map_compose. reflexivity.
Qed.

(** The table of the script is such a table, and [CHECKER_PATTERN] is its
    combined pattern. *)
Lemma combinedPattern_test_witness :
  PUNCTUATION_MAP <> []
  /\ forallb (fun kv => literalSource (source (fst kv))) PUNCTUATION_MAP
     = true
  /\ test CHECKER_PATTERN helloWorld
     = existsb (fun kv => test (fst kv) helloWorld) PUNCTUATION_MAP.
Proof.
  assert (Hne : PUNCTUATION_MAP <> []) by discriminate.
  assert (Hlit : forallb (fun kv => literalSource (source (fst kv)))
                         PUNCTUATION_MAP = true) by reflexivity.
  split; [exact Hne|]. split; [exact Hlit|].
  exact (combinedPattern_test PUNCTUATION_MAP helloWorld Hne Hlit).
Defined.

(** ** Matches and coordinates *)

(** X6: the matches that [coordinatesOfChars] walks over with the
    combined pattern are, in order, those at the indices of the text
    where the pattern matches, one at each such index and none elsewhere,
    and no match starts before the end of the one before. *)
Theorem matchAll_positions (text : jsstring) :
  let matches := matchAll (mkRegExp (source CHECKER_PATTERN) true) text in
  (forall i a,
     In (mkMatch i a) matches
     <-> matchAt (alternatives CHECKER_PATTERN) (skipn i text) = Some a)
  /\ (forall i j m1 m2,
        i < j ->
        nth_error matches i = Some m1 -> nth_error matches j = Some m2 ->
        index m1 + length (matched m1) <= index m2).
Proof.
  cbv zeta. unfold matchAll.
  change (alternatives (mkRegExp (source CHECKER_PATTERN) true))
    with (alternatives CHECKER_PATTERN).
  split; [apply matchAll_CHECKER_PATTERN_In|].
  intros i j m1 m2 Hij H1 H2.
  pose proof (ascending_pair _ _ i j m1 m2
                (execAll_ascending _ text 0 0) Hij H1 H2) as H.
  unfold resumeIndex in H. lia.
Qed.

(** X7: in every coordinate found with the combined pattern, the line
    number is one more than the number of newlines before the match, and
    the column number is two more than the number of characters between
    the start of that line and the match; the character is the one at the
    index of the match. *)
Theorem coordinates_counted (text : jsstring) :
  coordinatesOfChars CHECKER_PATTERN text
  = List.map
      (fun m => (S (countOf [10%N] (firstn (index m) text)),
                 columnOffset (firstn (index m) text) + 2,
                 nth_error text (index m)))
      (matchAll (mkRegExp (source CHECKER_PATTERN) true) text).
Proof.
  unfold coordinatesOfChars. apply map_ext_in. intros m Hm.
  apply coordinateOf_CHECKER_PATTERN. exact Hm.
Qed.

(** X8: the line numbers of the coordinates found with the combined
    pattern never decrease along the list, start at 1 and do not exceed
    the number of lines of the text; no column number is below 2. *)
Theorem coordinates_in_order (text : jsstring) :
  let coordinates := coordinatesOfChars CHECKER_PATTERN text in
  (forall i j l1 c1 ch1 l2 c2 ch2,
     i <= j ->
     nth_error coordinates i = Some (l1, c1, ch1) ->
     nth_error coordinates j = Some (l2, c2, ch2) ->
     l1 <= l2)
  /\ (forall l c ch,
        In (l, c, ch) coordinates ->
        1 <= l <= length (split 10 text) /\ 2 <= c).
Proof.
  cbv zeta. unfold coordinatesOfChars, matchAll.
  change (alternatives (mkRegExp (source CHECKER_PATTERN) true))
    with (alternatives CHECKER_PATTERN).
  split.
  - intros i j l1 c1 ch1 l2 c2 ch2 Hij H1 H2.
    rewrite nth_error_map in H1, H2.
    destruct (nth_error _ i) as [m1|] eqn:E1; [|discriminate].
    destruct (nth_error _ j) as [m2|] eqn:E2; [|discriminate].
    simpl in H1, H2.
    rewrite coordinateOf_CHECKER_PATTERN in H1
      by (eapply nth_error_In; exact E1).
    rewrite coordinateOf_CHECKER_PATTERN in H2
      by (eapply nth_error_In; exact E2).
    injection H1 as <- _ _. injection H2 as <- _ _.
    apply le_n_S, countOf_firstn_le.
    destruct (Nat.eq_dec i j) as [->|Hne].
    + rewrite E1 in E2. injection E2 as ->. lia.
    + pose proof (ascending_pair _ _ i j m1 m2
                    (execAll_ascending _ text 0 0) ltac:(lia) E1 E2) as H.
      unfold resumeIndex in H. lia.
  - intros l c ch Hin. apply in_map_iff in Hin as [m [Hm Hin]].
    rewrite coordinateOf_CHECKER_PATTERN in Hm by exact Hin.
    injection Hm as <- <- _. rewrite split_length.
    pose proof (countOf_firstn_all [10%N] text (index m)). lia.
Qed.

(** ** Fixes, character by character *)

(** X9: the thirteen rules over single characters act on each character
    on its own: [fixPunctuation] gives the result of the ellipsis rule on
    the text in which every full-width character of the table stands
    replaced by its half-width counterpart. *)
Theorem fixPunctuation_by_character (text : jsstring) :
  fixPunctuation text
  = replace (re_g ellipsisAlternative) (ofAscii "...")
            (List.map halfWidth text).
Proof. apply fixPunctuation_characters. Qed.

(** X10: [fixPunctuation] never makes a text longer: the fixed text is
    shorter than the text by four characters for every match of the
    ellipsis rule, and as long as the text when there is none. *)
Theorem fixPunctuation_length (text : jsstring) :
  length (fixPunctuation text)
  + 4 * length (matchAll (re_g ellipsisAlternative)
                         (List.map halfWidth text))
  = length text.
Proof.
  rewrite fixPunctuation_characters, replace_global by reflexivity.
  unfold matchAll.
  change (alternatives (re_g ellipsisAlternative))
    with [ellipsisAlternative].
  pose proof (splice_ellipsis_length (List.map halfWidth text) 0 0
                ltac:(lia)) as H.
  rewrite length_map in H. lia.
Qed.

(** X11: [fixPunctuation] keeps the newlines: the fixed text has as many
    lines as the text. *)
Theorem fixPunctuation_lines (text : jsstring) :
  length (split 10 (fixPunctuation text)) = length (split 10 text).
Proof.
  rewrite !split_length. f_equal.
  rewrite fixPunctuation_characters, replace_global by reflexivity.
  change (alternatives (re_g ellipsisAlternative))
    with [ellipsisAlternative].
  pose proof (splice_ellipsis_newlines (List.map halfWidth text) 0
                ltac:(lia)) as H.
  rewrite firstn_O, countOf_newline_halfWidth in H. simpl in H. lia.
Qed.

(** ** Runs over files *)

Section MoreRunProperties.

Variable join : jsstring -> jsstring -> jsstring.
Variable __dirname : jsstring.

(** X12: a detection run over readable files of which one has a match
    ends, with status 1, on the summary line; the number of errors in it
    is the sum of the numbers of coordinates of the listed files and the
    number of files is the number of listed paths whose file has a match,
    a path listed twice counting twice. *)
Theorem detection_summary (processer : jsstring -> jsstring)
  (absolute : bool) (paths : list jsstring) (w : World) :
  readable join __dirname absolute (files w) paths ->
  existsb (hasMatch join __dirname absolute (files w)) paths = true ->
  exists w' lines,
    iterateFiles join __dirname paths processer false absolute w
    = Exited 1 w'
    /\ console w'
       = lines ++
         [MsgSummaryErrors
            (list_sum (List.map (matchCount join __dirname absolute (files w))
                                paths))
            (length (List.filter (hasMatch join __dirname absolute (files w))
                                 paths))].
Proof.
  intros Hr Hany.
  rewrite (iterateFiles_detect join __dirname processer absolute paths w Hr).
  cbv zeta. rewrite tally_errFlag, Hany. cbn [errFlag orb].
  destruct (tally_counts join __dirname absolute (files w) paths
              (mkCounters 0 false 0 0)) as [-> ->].
  eexists _, _. split; [reflexivity|]. simpl. reflexivity.
Qed.

(** X13: a fix run over readable files returns, and its last line is "no
    error" when it has written no file and otherwise the summary with the
    number of files written, which is the number of writes it made. *)
Theorem fix_summary (absolute : bool) (paths : list jsstring) (w : World) :
  readable join __dirname absolute (files w) paths ->
  exists w' new lines,
    iterateFiles join __dirname paths fixPunctuation true absolute w
    = Returned tt w'
    /\ writes w' = writes w ++ new
    /\ console w'
       = lines ++ [match new with
                   | [] => MsgNoError
                   | _ :: _ => MsgSummaryFixed (length new)
                   end].
Proof.
  intros Hr.
  destruct (iterateFiles_fix_summary join __dirname absolute paths w Hr)
    as [w1 [new [[Hw _] Hrun]]].
  eexists _, new, _. split; [exact Hrun|]. split; [exact Hw|].
  simpl.
  change [MsgScanning (length paths); MsgFinding DOCS_PATTERN;
          match new with
          | [] => MsgNoError
          | _ :: _ => MsgSummaryFixed (length new)
          end]
    with ([MsgScanning (length paths); MsgFinding DOCS_PATTERN] ++
          [match new with
           | [] => MsgNoError
           | _ :: _ => MsgSummaryFixed (length new)
           end]).
  rewrite app_assoc. reflexivity.
Qed.

(** X14: after a fix run over readable files, a detection run over the
    same list returns without error. *)
Theorem fix_then_detect (processer : jsstring -> jsstring) (absolute : bool)
  (paths : list jsstring) (w : World) :
  readable join __dirname absolute (files w) paths ->
  exists w' w'',
    iterateFiles join __dirname paths fixPunctuation true absolute w
    = Returned tt w'
    /\ iterateFiles join __dirname paths processer false absolute w'
       = Returned tt w''.
Proof.
  intros Hr.
  destruct (iterateFiles_fix_summary join __dirname absolute paths w Hr)
    as [w1 [new [Hout Hrun]]].
  pose proof (fixOutcome_clean join __dirname absolute paths w w1 new Hr Hout)
    as Hclean.
  eexists _, _. split; [exact Hrun|].
  rewrite iterateFiles_detect.
  - cbv zeta. rewrite tally_errFlag. cbn [errFlag orb].
    replace (existsb _ paths) with false; [reflexivity|].
    symmetry. apply not_true_iff_false. intros Hex.
    apply existsb_exists in Hex as [p [Hp Hm]].
    destruct (Hclean p Hp) as [c [Hc Ht]].
    unfold hasMatch in Hm. simpl in Hm. rewrite Hc in Hm. congruence.
  - intros p Hp. destruct (Hclean p Hp) as [c [Hc _]]. simpl. eauto.
Qed.

(** X15: a second fix run over the same readable files writes nothing
    and leaves every file as the first run left it. *)
Theorem fix_twice (absolute : bool) (paths : list jsstring) (w : World) :
  readable join __dirname absolute (files w) paths ->
  exists w' w'',
    iterateFiles join __dirname paths fixPunctuation true absolute w
    = Returned tt w'
    /\ iterateFiles join __dirname paths fixPunctuation true absolute w'
       = Returned tt w''
    /\ writes w'' = writes w'
    /\ files w'' = files w'.
Proof.
  intros Hr.
  destruct (iterateFiles_fix_summary join __dirname absolute paths w Hr)
    as [w1 [new [Hout Hrun]]].
  pose proof (fixOutcome_clean join __dirname absolute paths w w1 new Hr Hout)
    as Hclean.
  set (w' := addConsole w1 _) in Hrun.
  assert (Hr' : readable join __dirname absolute (files w') paths).
  { intros p Hp. destruct (Hclean p Hp) as [c [Hc _]]. simpl. eauto. }
  destruct (iterateFiles_fix_summary join __dirname absolute paths w' Hr')
    as [w2 [new2 [(Hw2 & _ & Hin2 & _ & Hkeep2) Hrun2]]].
  assert (Hlisted : forall q,
            In q (List.map (absPathOf join __dirname absolute) paths) ->
            exists c, files w' !! q = Some c
                      /\ test CHECKER_PATTERN c = false).
  { intros q Hq. apply in_map_iff in Hq as [p [<- Hp]].
    apply (Hclean p Hp). }
  assert (Hnew2 : new2 = []).
  { destruct new2 as [|[q d] new2]; [reflexivity|]. exfalso.
    destruct (proj1 (Hin2 q d) (or_introl eq_refl))
      as [Hq [c [Hc [Ht _]]]].
    destruct (Hlisted q Hq) as [c' [Hc' Ht']]. congruence. }
  exists w', (addConsole w2
                [MsgScanning (length paths); MsgFinding DOCS_PATTERN;
                 match new2 with
                 | [] => MsgNoError
                 | _ :: _ => MsgSummaryFixed (length new2)
                 end]).
  split; [exact Hrun|]. split; [exact Hrun2|]. split.
  - simpl. rewrite Hw2, Hnew2, app_nil_r. reflexivity.
  - simpl. apply map_eq. intros q. apply Hkeep2.
    destruct (decide (q ∈ List.map (absPathOf join __dirname absolute)
                                   paths)) as [Hq|Hq];
      rewrite list_elem_of_In in Hq;
      [right; apply (Hlisted q Hq) | left; exact Hq].
Qed.

(** X16: when the files of the list before [p] are readable and the file
    of [p] is missing, the run throws on reaching it, in either mode,
    without a summary and without looking at the files after it.  A
    detection run has by then printed the header and the diagnostics of
    the files before [p], and nothing else.  A fix run has by then
    printed the header and one line for each file before [p], and nothing
    else; it has written the files before [p] that have a match, once
    each, with their fixed text, and no other file. *)
Theorem missing_file (processer : jsstring -> jsstring) (absolute : bool)
  (pre post : list jsstring) (p : jsstring) (w : World) :
  readable join __dirname absolute (files w) pre ->
  files w !! absPathOf join __dirname absolute p = None ->
  iterateFiles join __dirname (pre ++ p :: post) processer false absolute w
  = Thrown (addConsole w
              (MsgLinting false ::
               flat_map (diagnostics join __dirname absolute (files w)) pre))
  /\ exists w' new lines,
       iterateFiles join __dirname (pre ++ p :: post) fixPunctuation true
                    absolute w
       = Thrown w'
       /\ console w' = console w ++ MsgLinting true :: lines
       /\ Forall2 (fun p' m => m = MsgFixed p' \/ m = MsgClean p') pre lines
       /\ writes w' = writes w ++ new
       /\ NoDup (List.map fst new)
       /\ (forall q d,
             In (q, d) new <->
             In q (List.map (absPathOf join __dirname absolute) pre)
             /\ exists c, files w !! q = Some c
                          /\ test CHECKER_PATTERN c = true
                          /\ d = fixPunctuation c)
       /\ (forall q c,
             In q (List.map (absPathOf join __dirname absolute) pre) ->
             files w !! q = Some c -> test CHECKER_PATTERN c = true ->
             files w' !! q = Some (fixPunctuation c))
       /\ (forall q,
             ~ In q (List.map (absPathOf join __dirname absolute) pre)
             \/ (exists c, files w !! q = Some c
                           /\ test CHECKER_PATTERN c = false) ->
             files w' !! q = files w !! q).
Proof.
  intros Hr Hp. split.
  - unfold iterateFiles, scanFiles, mbind, Run_bind.
    rewrite console_log_run, forOf_app.
    rewrite (scan_detect join __dirname processer absolute pre _
               (addConsole w _)) by exact Hr.
    cbn [forOf]. unfold mbind, Run_bind.
    rewrite iterateFile_unreadable by exact Hp.
    rewrite addConsole_app. reflexivity.
  - destruct (scan_fix_returns join __dirname fixPunctuation absolute pre
                (mkCounters 0 false 0 0) (addConsole w [MsgLinting true]) Hr)
      as [st1 [w1 Hscan]].
    destruct (scan_fix_outcome _ _ _ _ _ _ _ _ Hscan)
      as [new (Hw & Hnd & Hin & Hfix & Hkeep)].
    destruct (scan_fix_console _ _ _ _ _ _ _ _ _ Hscan)
      as [lines [Hcon Hlines]].
    simpl in Hw, Hin, Hfix, Hkeep, Hcon.
    assert (Hp1 : files w1 !! absPathOf join __dirname absolute p = None).
    { rewrite Hkeep; [exact Hp|]. left. intros Hq.
      apply in_map_iff in Hq as [p' [Heq Hp']].
      destruct (Hr p' Hp') as [c Hc]. rewrite Heq in Hc. congruence. }
    exists w1, new, lines. split.
    + unfold iterateFiles, scanFiles, mbind, Run_bind.
      rewrite console_log_run, forOf_app, Hscan.
      cbn [forOf]. unfold mbind, Run_bind.
      rewrite iterateFile_unreadable by exact Hp1. reflexivity.
    + split; [rewrite Hcon, <- app_assoc; reflexivity|].
      split; [exact Hlines|]. split; [exact Hw|]. split; [exact Hnd|].
      split; [exact Hin|]. split; [exact Hfix | exact Hkeep].
Qed.

End MoreRunProperties.

(** ** The example run, further *)

(** In the example the first file, listed twice, has two matches. *)
Lemma detection_summary_witness :
  readable exampleJoin exampleDirname false (files exampleWorld) examplePaths
  /\ existsb (hasMatch exampleJoin exampleDirname false (files exampleWorld))
             examplePaths = true
  /\ exists w' lines,
       iterateFiles exampleJoin exampleDirname examplePaths fixPunctuation
                    false false exampleWorld = Exited 1 w'
       /\ console w' = lines ++ [MsgSummaryErrors 4 2].
Proof.
  assert (Hany : existsb (hasMatch exampleJoin exampleDirname false
                            (files exampleWorld)) examplePaths = true)
    by (vm_compute; reflexivity).
  split; [exact example_readable|]. split; [exact Hany|].
  exact (detection_summary exampleJoin exampleDirname fixPunctuation false
           examplePaths exampleWorld example_readable Hany).
Defined.

(** In the example a fix run returns. *)
Lemma fix_summary_witness :
  readable exampleJoin exampleDirname false (files exampleWorld) examplePaths
  /\ exists w' new lines,
       iterateFiles exampleJoin exampleDirname examplePaths fixPunctuation
                    true false exampleWorld = Returned tt w'
       /\ writes w' = writes exampleWorld ++ new
       /\ console w'
          = lines ++ [match new with
                      | [] => MsgNoError
                      | _ :: _ => MsgSummaryFixed (length new)
                      end].
Proof.
  split; [exact example_readable|].
  exact (fix_summary exampleJoin exampleDirname false examplePaths
           exampleWorld example_readable).
Defined.

(** In the example detection passes after fixing. *)
Lemma fix_then_detect_witness :
  readable exampleJoin exampleDirname false (files exampleWorld) examplePaths
  /\ exists w' w'',
       iterateFiles exampleJoin exampleDirname examplePaths fixPunctuation
                    true false exampleWorld = Returned tt w'
       /\ iterateFiles exampleJoin exampleDirname examplePaths fixPunctuation
                       false false w' = Returned tt w''.
Proof.
  split; [exact example_readable|].
  exact (fix_then_detect exampleJoin exampleDirname fixPunctuation false
           examplePaths exampleWorld example_readable).
Defined.

(** In the example a second fix run changes nothing. *)
Lemma fix_twice_witness :
  readable exampleJoin exampleDirname false (files exampleWorld) examplePaths
  /\ exists w' w'',
       iterateFiles exampleJoin exampleDirname examplePaths fixPunctuation
                    true false exampleWorld = Returned tt w'
       /\ iterateFiles exampleJoin exampleDirname examplePaths fixPunctuation
                       true false w' = Returned tt w''
       /\ writes w'' = writes w'
       /\ files w'' = files w'.
Proof.
  split; [exact example_readable|].
  exact (fix_twice exampleJoin exampleDirname false examplePaths
           exampleWorld example_readable).
Defined.

(** A list with a missing file between the two files of the example:
    the run throws after fixing the first file, with the header and one
    line on the console. *)
Lemma missing_file_witness :
  readable exampleJoin exampleDirname false (files exampleWorld)
           [ofAscii "docs/a.md"]
  /\ files exampleWorld
       !! absPathOf exampleJoin exampleDirname false (ofAscii "docs/none.md")
     = None
  /\ exists w' new lines,
       iterateFiles exampleJoin exampleDirname
         ([ofAscii "docs/a.md"] ++ ofAscii "docs/none.md"
                                   :: [ofAscii "docs/b.md"])
         fixPunctuation true false exampleWorld = Thrown w'
       /\ console w' = console exampleWorld ++ MsgLinting true :: lines
       /\ length lines = 1
       /\ writes w' = writes exampleWorld ++ new.
Proof.
  assert (Hr : readable exampleJoin exampleDirname false (files exampleWorld)
                        [ofAscii "docs/a.md"]).
  { intros p [<-|[]]. vm_compute. eauto. }
  assert (Hp : files exampleWorld
                 !! absPathOf exampleJoin exampleDirname false
                      (ofAscii "docs/none.md") = None)
    by (vm_compute; reflexivity).
  split; [exact Hr|]. split; [exact Hp|].
  destruct (proj2 (missing_file exampleJoin exampleDirname fixPunctuation
                     false [ofAscii "docs/a.md"] [ofAscii "docs/b.md"]
                     (ofAscii "docs/none.md") exampleWorld Hr Hp))
    as [w' [new [lines (Hrun & Hcon & Hlines & Hw & _)]]].
  exists w', new, lines. split; [exact Hrun|]. split; [exact Hcon|].
  split; [|exact Hw].
  apply Forall2_length in Hlines. symmetry. exact Hlines.
Defined.
